(** * AlphaStreamTemplateAlgorithm: the template algorithm and the pipeline
      contract it exercises.

    Source: Algorithm.Python/AlphaStreamTemplateAlgorithm.py.

    The file embeds [SelectCoarse] and the inner class [AlphaModelTemplate]
    as written, and models from the specification the framework components
    the template only selects (security registry, insight store, equal
    weighting portfolio construction, orchestration engine). *)

From Stdlib Require Import QArith Qabs.
From stdpp Require Import sorting functions pretty gmap strings list.

Set Default Proof Using "Type".
Local Open Scope Z_scope.

(** * Part I: definitions *)

(** ** Python list primitives used by the template *)

Section PyList.
Context {A : Type} `{EqDecision A}.

(** [x in l]: linear membership test with [==]. *)
Definition py_in (x : A) (l : list A) : bool := bool_decide (x ∈ l).

(** [l.remove(x)]: deletes the first element equal to [x].  Python raises
    ValueError when there is none; the template guards every call with
    [x in l], so the unguarded case is modelled as no change. *)
Fixpoint py_remove (x : A) (l : list A) : list A :=
  match l with
  | [] => []
  | y :: l' => if decide (y = x) then l' else y :: py_remove x l'
  end.

(** [l.append(x)]. *)
Definition py_append (l : list A) (x : A) : list A := l ++ [x].
End PyList.

(** [sorted] is a stable sort: records comparing equal keep their input
    order, also with [reverse = True].  [goes_before x y] tells whether [x],
    which precedes [y] in the input, stays in front of it. *)
Section StableSort.
Context {A : Type} (goes_before : A → A → bool).

Fixpoint insert_sorted (x : A) (l : list A) : list A :=
  match l with
  | [] => [x]
  | y :: l' => if goes_before x y then x :: y :: l' else y :: insert_sorted x l'
  end.

Definition stable_sort (l : list A) : list A := foldr insert_sorted [] l.
End StableSort.

(** [sorted(l, key = key, reverse = True)] on rational keys. *)
Definition py_sorted_reverse {A} (key : A → Q) (l : list A) : list A :=
  stable_sort (λ x y, Qle_bool (key y) (key x)) l.

(** Order on the rationals is decidable. *)
Global Instance Qle_dec (x y : Q) : Decision (x <= y)%Q.
Proof. unfold Qle. apply _. Defined.

Global Instance Qlt_dec (x y : Q) : Decision (x < y)%Q.
Proof. unfold Qlt. apply _. Defined.

(** ** Data handed to the template by the framework *)

Definition Symbol := string.

(** One record of the coarse fundamental snapshot; prices and volumes are
    decimal numbers. *)
Record CoarseFundamental := mkCoarse {
  cf_Symbol : Symbol;
  Price : Q;
  DollarVolume : Q;
  HasFundamentalData : bool
}.

(** A security object of the engine.  [in] and [list.remove] compare the
    objects themselves, and the engine keeps one object per symbol, so an
    object is identified by its symbol; its mutable fields are read through
    the algorithm instance. *)
Record Security := mkSecurity {
  sec_Symbol : Symbol
}.

Global Instance Security_eq_dec : EqDecision Security.
Proof. solve_decision. Defined.

Record SecurityChanges := mkChanges {
  AddedSecurities : list Security;
  RemovedSecurities : list Security
}.

Inductive InsightDirection := Down | Flat | Up.

Global Instance InsightDirection_eq_dec : EqDecision InsightDirection.
Proof. solve_decision. Defined.

(** An insight: a directional signal of one source stage for one symbol,
    valid from [GeneratedTime] for [Period]. *)
Record Insight := mkInsight {
  Id : nat;
  ins_Symbol : Symbol;
  SourceModel : string;
  Direction : InsightDirection;
  Magnitude : option Q;
  Confidence : option Q;
  GeneratedTime : Z;
  Period : Z
}.

Definition expiry (i : Insight) : Z := GeneratedTime i + Period i.

(** The mutable part of a security. *)
Record SecurityState := mkSecurityState {
  IsTradable : bool
}.

(** The part of the algorithm instance a model can consult. *)
Record QCAlgorithm := mkAlgorithm {
  UtcTime : Z;
  Securities : gmap Symbol SecurityState
}.

Definition tradable (algorithm : QCAlgorithm) (sym : Symbol) : bool :=
  match Securities algorithm !! sym with
  | Some sec => IsTradable sec
  | None => false
  end.

(** A slice: the data points of one time step, keyed by symbol. *)
Record Slice := mkSlice {
  slice_Time : Z;
  Bars : gmap Symbol Q
}.

(** ** AlphaStreamTemplateAlgorithm.SelectCoarse *)

(** [cf.HasFundamentalData and cf.Price > 5] *)
Definition qualifies (cf : CoarseFundamental) : bool :=
  HasFundamentalData cf && negb (Qle_bool (Price cf) 5).

(** [filtered = [cf for cf in coarse if ...]] *)
Definition filtered (coarse : list CoarseFundamental) : list CoarseFundamental :=
  filter (λ cf, Is_true (qualifies cf)) coarse.

(** [sortedbyDollarVolume = sorted(filtered, key = lambda cf: cf.DollarVolume,
    reverse = True)] *)
Definition sortedbyDollarVolume (coarse : list CoarseFundamental) : list CoarseFundamental :=
  py_sorted_reverse DollarVolume (filtered coarse).

(** [return [cf.Symbol for cf in sortedbyDollarVolume][:50]] *)
Definition SelectCoarse (coarse : list CoarseFundamental) : list Symbol :=
  take 50 (cf_Symbol <$> sortedbyDollarVolume coarse).

(** The snapshots on which the cut after the 50th record does not fall
    between two records of equal dollar volume. *)
Definition no_tie_at_cut (coarse : list CoarseFundamental) : Prop :=
  ∀ a b,
    sortedbyDollarVolume coarse !! 49%nat = Some a →
    sortedbyDollarVolume coarse !! 50%nat = Some b →
    ¬ (DollarVolume a == DollarVolume b)%Q.

(** ** AlphaModelTemplate *)

Module AlphaModelTemplate.

(** The only attribute of the model is [self.securities]. *)
Definition state := list Security.

(** [__init__]: [self.securities = list()]. *)
Definition init : state := [].

(** [Update(self, algorithm, data)]: [return []]. *)
Definition Update (secs : state) (algorithm : QCAlgorithm) (data : Slice) : list Insight :=
  [].

(** Body of the first loop: [if removed in self.securities:
    self.securities.remove(removed)]. *)
Definition remove_step (secs : state) (removed : Security) : state :=
  if py_in removed secs then py_remove removed secs else secs.

(** Body of the second loop: [if added not in self.securities:
    self.securities.append(added)]. *)
Definition add_step (secs : state) (added : Security) : state :=
  if negb (py_in added secs) then py_append secs added else secs.

(** [OnSecuritiesChanged(self, algorithm, changes)]; the algorithm
    argument is not used by the body. *)
Definition OnSecuritiesChanged (secs : state) (changes : SecurityChanges) : state :=
  foldl add_step
        (foldl remove_step secs (RemovedSecurities changes))
        (AddedSecurities changes).

(** The states the model reaches from [__init__] through notifications. *)
Definition after_notifications (history : list SecurityChanges) : state :=
  foldl OnSecuritiesChanged init history.

End AlphaModelTemplate.

(** A changes value of the data model is the diff of two sets of
    securities: no security is both added and removed. *)
Definition disjoint_changes (changes : SecurityChanges) : Prop :=
  ∀ x, x ∈ AddedSecurities changes → x ∉ RemovedSecurities changes.

(** ** Security registry *)

Module SecurityRegistry.

(** Modelled from the spec: the security registry of the engine, which the
    template only feeds through [SetUniverseSelection]; its code is not
    part of the template.  The spec, sections 3 and 4.1: a security is
    created on first selection and marked non-tradable, not deleted, on
    removal; the registry diffs the newly selected set against the
    previously tracked set to produce the changes. *)
Record registry := mkRegistry {
  known : gmap Symbol bool  (* symbol -> tradable flag *)
}.

Definition empty : registry := mkRegistry ∅.

(** The tracked set: the symbols currently tradable. *)
Definition tracked (r : registry) : gset Symbol :=
  dom (filter (λ kv, kv.2 = true) (known r)).

Record changes := mkDiff {
  added : gset Symbol;
  removed : gset Symbol
}.

(** Modelled from the spec: the diff of two sets. *)
Definition diff (old_set new_set : gset Symbol) : changes :=
  {| added := new_set ∖ old_set; removed := old_set ∖ new_set |}.

(** Modelled from the spec: removed securities lose the tradable flag,
    added ones are created or become tradable again. *)
Definition apply (c : changes) (r : registry) : registry :=
  mkRegistry
    (gset_to_gmap true (added c) ∪
     map_imap (λ sym flag, Some (if decide (sym ∈ removed c) then false else flag))
              (known r)).

(** What one universe snapshot leaves behind: the tracked set before, the
    diff, and the newly selected set. *)
Record emission := mkEmission {
  old_set : gset Symbol;
  diff_of : changes;
  new_set : gset Symbol
}.

(** Modelled from the spec: one selection; the changes are emitted only
    when membership changed. *)
Definition select (r : registry) (snapshot : gset Symbol)
    : registry * option emission :=
  let c := diff (tracked r) snapshot in
  (apply c r, if decide (added c = ∅ ∧ removed c = ∅) then None
              else Some (mkEmission (tracked r) c snapshot)).

(** The emissions of a sequence of snapshots. *)
Fixpoint run (r : registry) (snapshots : list (gset Symbol)) : list emission :=
  match snapshots with
  | [] => []
  | snapshot :: rest =>
      let '(r', e) := select r snapshot in
      match e with
      | Some e => e :: run r' rest
      | None => run r' rest
      end
  end.

(** The registry after a sequence of snapshots. *)
Definition after (r : registry) (snapshots : list (gset Symbol)) : registry :=
  foldl (λ r snapshot, (select r snapshot).1) r snapshots.

(** Each diff starts from the set the diff before it led to. *)
Fixpoint chained (start : gset Symbol) (es : list emission) : Prop :=
  match es with
  | [] => True
  | e :: es' => old_set e = start ∧ chained (new_set e) es'
  end.

End SecurityRegistry.

(** The notification the models receive for a diff of the registry. *)
Definition notification (c : SecurityRegistry.changes) : SecurityChanges :=
  mkChanges (mkSecurity <$> elements (SecurityRegistry.added c))
            (mkSecurity <$> elements (SecurityRegistry.removed c)).

(** ** Insight store *)

Module InsightStore.

(** Modelled from the spec: the insight store of the engine, section 4.3;
    its code is not part of the template.  The store holds the insights
    in insertion order. *)
Abbreviation store := (list Insight).

Definition empty : store := [].

(** The producer of an insight for a symbol. *)
Definition key (i : Insight) : Symbol * string := (ins_Symbol i, SourceModel i).

(** Modelled from the spec: [submit(insight)] admits the insight and
    expires the one held for the same (symbol, source) pair. *)
Definition submit (s : store) (i : Insight) : store :=
  filter (λ j, key j ≠ key i) s ++ [i].

(** Modelled from the spec: [expire(now)] purges insights with
    [expiry <= now]. *)
Definition expire (s : store) (now : Z) : store :=
  filter (λ j, now < expiry j) s.

(** Modelled from the spec: insights of a security whose tradable flag is
    cleared are dropped at once. *)
Definition drop (s : store) (sym : Symbol) : store :=
  filter (λ j, ins_Symbol j ≠ sym) s.

(** Modelled from the spec: [activeFor(symbol, now)] returns the insights
    with [expiry > now], oldest first, ties in insertion order. *)
Definition activeFor (s : store) (sym : Symbol) (now : Z) : list Insight :=
  stable_sort (λ i j, GeneratedTime i <=? GeneratedTime j)
              (filter (λ j, ins_Symbol j = sym ∧ now < expiry j) s).

(** The active insights of one producer for a symbol. *)
Definition activeOf (s : store) (k : Symbol * string) (now : Z) : list Insight :=
  filter (λ j, SourceModel j = k.2) (activeFor s k.1 now).

(** The operations the engine performs on the store. *)
Inductive op :=
| Submit (i : Insight)
| Expire (now : Z)
| Drop (sym : Symbol).

Definition exec (s : store) (o : op) : store :=
  match o with
  | Submit i => submit s i
  | Expire now => expire s now
  | Drop sym => drop s sym
  end.

Definition execs (s : store) (ops : list op) : store := foldl exec s ops.

(** What an operation must not do for the insight [i] to stay in the
    store: supersede it, drop its symbol, or purge later than [now]. *)
Definition spares (i : Insight) (now : Z) (o : op) : Prop :=
  match o with
  | Submit j => key j ≠ key i
  | Expire t => t ≤ now
  | Drop sym => sym ≠ ins_Symbol i
  end.

(** At most one insight per producer per symbol. *)
Definition one_per_producer (s : store) : Prop := NoDup (key <$> s).

End InsightStore.

(** ** Portfolio construction: equal weighting *)

Module EqualWeighting.

Record PortfolioTarget := mkTarget {
  target_Symbol : Symbol;
  Weight : Q
}.

(** The side of a position, and the sign it gives to a weight. *)
Inductive Side := Long | Short.

Definition sign (side : Side) : Z :=
  match side with Long => 1 | Short => -1 end.

(** The side a direction asks for.  The spec gives Up and Down their sign
    and says nothing of Flat: [flat_side] is the side a policy takes when
    the signing insight is Flat. *)
Definition side_of (flat_side : Side) (d : InsightDirection) : Side :=
  match d with Up => Long | Down => Short | Flat => flat_side end.

Definition is_nonflat (i : Insight) : bool :=
  bool_decide (Direction i ≠ Flat).

(** The most recent insight of a list: the greatest generation time, the
    later entry on ties. *)
Definition later (best : option Insight) (i : Insight) : option Insight :=
  match best with
  | None => Some i
  | Some b => if GeneratedTime b <=? GeneratedTime i then Some i else Some b
  end.

Definition most_recent (l : list Insight) : option Insight := foldl later None l.

Definition insights_of (active : gmap Symbol (list Insight)) (sym : Symbol)
    : list Insight :=
  default [] (active !! sym).

(** A symbol with at least one active insight whose direction is not
    Flat. *)
Definition signalled (active : gmap Symbol (list Insight)) (sym : Symbol) : bool :=
  existsb is_nonflat (insights_of active sym).

(** The symbols that get a target: the universe and every symbol with
    insights, each once. *)
Definition symbols (active : gmap Symbol (list Insight)) (universe : gset Symbol)
    : list Symbol :=
  elements (universe ∪ dom active).

(** [1/N], and 0 when there is nothing to weigh. *)
Definition share (n : nat) : Q :=
  match n with
  | O => 0%Q
  | S _ => 1 # Pos.of_nat n
  end.

(** Modelled from the spec: the equal weighting policy the template
    selects with [SetPortfolioConstruction]; its code is not part of the
    template.  The spec, section 4.5: every symbol with at least one
    active insight that is not Flat gets the absolute weight [1/N], signed
    by the direction of the most recent active insight of the symbol; the
    other symbols get 0. *)
Definition weight (flat_side : Side) (active : gmap Symbol (list Insight))
    (n : nat) (sym : Symbol) : Q :=
  if signalled active sym then
    match most_recent (insights_of active sym) with
    | Some i => (inject_Z (sign (side_of flat_side (Direction i))) * share n)%Q
    | None => 0%Q
    end
  else 0%Q.

(** Modelled from the spec: [construct(activeInsightsBySymbol, universe)]. *)
Definition construct (flat_side : Side) (active : gmap Symbol (list Insight))
    (universe : gset Symbol) : list PortfolioTarget :=
  let n := length (filter (λ sym, Is_true (signalled active sym))
                          (symbols active universe)) in
  (λ sym, mkTarget sym (weight flat_side active n sym)) <$> symbols active universe.

Definition sumQ (l : list Q) : Q := foldr Qplus 0%Q l.

(** The sum of the absolute target weights over the symbols with an
    active insight that is not Flat. *)
Definition signalled_exposure (active : gmap Symbol (list Insight))
    (targets : list PortfolioTarget) : Q :=
  sumQ (Qabs ∘ Weight <$>
        filter (λ t, Is_true (signalled active (target_Symbol t))) targets).

End EqualWeighting.

(** ** Orchestration engine: stage failures *)

Module Engine.

Inductive Stage :=
| UniverseSelection | Alpha | PortfolioConstruction | RiskManagement | Execution.

Global Instance Stage_eq_dec : EqDecision Stage.
Proof. solve_decision. Defined.

(** The stages of one tick, in the order the engine runs them. *)
Definition pipeline : list Stage :=
  [UniverseSelection; Alpha; PortfolioConstruction; RiskManagement; Execution].

(** Three consecutive failures of a stage are fatal. *)
Definition threshold : nat := 3.

(** Why an engine stopped for good. *)
Inductive halt := StageFailures | DataOrderingViolation.

Global Instance halt_eq_dec : EqDecision halt.
Proof. solve_decision. Defined.

Section WithItems.
(** What stages hand on (symbols, insights, targets, orders). *)
Context {Item : Type}.

(** What a stage sees of the tick: the outputs of the stages before it. *)
Definition context := list (Stage * list Item).

(** A tick: the time of its slice, and the behaviour of each stage on the
    slice; [None] is a raised error. *)
Record Tick := mkTick {
  tick_time : Z;
  tick_stage : Stage → context → option (list Item)
}.

(** The record the engine keeps of one stage call. *)
Record stage_run := mkRun {
  run_stage : Stage;
  run_failed : bool;
  run_output : list Item
}.

Record engine := mkEngine {
  failures : Stage → nat;            (* consecutive failures per stage *)
  trace_rev : list (list stage_run); (* processed ticks, latest first *)
  clock : option Z;                  (* time of the latest processed slice *)
  halted : option halt
}.

Definition start : engine :=
  {| failures := λ _, O; trace_rev := []; clock := None; halted := None |}.

Definition outputs (log : list stage_run) : context :=
  (λ r, (run_stage r, run_output r)) <$> log.

(** Modelled from the spec: the stage boundary; the engine of the
    framework is not part of the template.  The spec, section 4.2: an
    error is caught and logged, and the output of the stage is empty for
    the tick; the stages after it still run. *)
Definition call_stage (t : Tick) (log : list stage_run) (st : Stage)
    : list stage_run :=
  log ++ [match tick_stage t st (outputs log) with
          | Some out => mkRun st false out
          | None => mkRun st true []
          end].

Definition run_tick (t : Tick) : list stage_run :=
  foldl (call_stage t) [] pipeline.

(** Stage [st] failed in the tick recorded as [log]. *)
Definition failed_in (st : Stage) (log : list stage_run) : bool :=
  existsb (λ r, bool_decide (run_stage r = st) && run_failed r) log.

(** Modelled from the spec: a failure counts toward the threshold, a
    tick without failure of the stage starts the count again. *)
Definition count (fails : Stage → nat) (log : list stage_run) : Stage → nat :=
  λ st, if failed_in st log then S (fails st) else O.

Definition fatal (fails : Stage → nat) : bool :=
  existsb (λ st, threshold <=? fails st)%nat pipeline.

(** Modelled from the spec, section 7 (b): a slice with a time earlier
    than the slice processed before it. *)
Definition out_of_order (e : engine) (t : Tick) : bool :=
  match clock e with
  | Some now => tick_time t <? now
  | None => false
  end.

(** Modelled from the spec: one tick.  A halted engine processes no tick;
    a slice out of time order halts the engine before any stage runs; a
    tick in progress runs to completion before a halt for stage
    failures. *)
Definition step (e : engine) (t : Tick) : engine :=
  match halted e with
  | Some _ => e
  | None =>
      if out_of_order e t then
        {| failures := failures e; trace_rev := trace_rev e; clock := clock e;
           halted := Some DataOrderingViolation |}
      else
        let log := run_tick t in
        let fails := count (failures e) log in
        {| failures := fails; trace_rev := log :: trace_rev e;
           clock := Some (tick_time t);
           halted := if fatal fails then Some StageFailures else None |}
  end.

(** The run over the slices the engine pulls, in the order it pulls them,
    up to the stop signal if there is one. *)
Definition run (ticks : list Tick) : engine := foldl step start ticks.

(** The processed ticks, oldest first. *)
Definition trace (e : engine) : list (list stage_run) := reverse (trace_rev e).

(** The number of consecutive latest ticks in which [st] failed. *)
Fixpoint streak (st : Stage) (logs_rev : list (list stage_run)) : nat :=
  match logs_rev with
  | [] => O
  | log :: older => if failed_in st log then S (streak st older) else O
  end.

(** No stage has reached the threshold on these ticks. *)
Definition calm (logs_rev : list (list stage_run)) : Prop :=
  ∀ st, (streak st logs_rev < threshold)%nat.

(** What holds of every engine the run reaches: the counters are the
    streaks of the trace, the engine is halted for stage failures exactly
    when a counter is at the threshold, and no counter was there before
    the latest tick. *)
Definition consistent (e : engine) : Prop :=
  (∀ st, failures e st = streak st (trace_rev e))
  ∧ (halted e = Some StageFailures ↔ fatal (failures e) = true)
  ∧ ∀ k, (0 < k)%nat → calm (drop k (trace_rev e)).

(** The record of a tick shows what the tick did: the entry of a stage
    tells a failure, with an empty output, exactly when the stage
    raised on the outputs before it, and carries its output
    otherwise. *)
Definition entry_ok (t : Tick) (before : list stage_run) (r : stage_run) : Prop :=
  match tick_stage t (run_stage r) (outputs before) with
  | Some out => run_failed r = false ∧ run_output r = out
  | None => run_failed r = true ∧ run_output r = []
  end.

Definition tick_ok (t : Tick) (log : list stage_run) : Prop :=
  run_stage <$> log = pipeline
  ∧ ∀ i r, log !! i = Some r → entry_ok t (take i log) r.

End WithItems.
Global Arguments stage_run : clear implicits.
Global Arguments engine : clear implicits.
Global Arguments Tick : clear implicits.
Global Arguments context : clear implicits.

End Engine.

(** ** Sample data *)

Definition SPY : Security := mkSecurity "SPY".
Definition MSFT : Security := mkSecurity "MSFT".

(** A snapshot of 51 qualifying records of one dollar volume, with the
    symbols S0 .. S50. *)
Definition tied_record (i : nat) : CoarseFundamental :=
  mkCoarse ("S" +:+ pretty i) 10 1000 true.

Definition tied_snapshot : list CoarseFundamental := tied_record <$> seq 0 51.

Definition small_snapshot : list CoarseFundamental :=
  [ mkCoarse "AAA" 12 300 true;
    mkCoarse "BBB" 4 900 true;     (* price too low *)
    mkCoarse "CCC" 20 700 false;   (* no fundamental data *)
    mkCoarse "DDD" (11 # 2) 800 true;
    mkCoarse "EEE" 30 300 true ].

(** Insights of two sources on SPY. *)
Definition up_SPY : Insight := mkInsight 1 "SPY" "alpha" Up None None 0 10.
Definition down_SPY : Insight := mkInsight 2 "SPY" "alpha" Down None None 5 10.
Definition flat_SPY : Insight := mkInsight 3 "SPY" "momentum" Flat None None 6 10.
Definition up_MSFT : Insight := mkInsight 4 "MSFT" "alpha" Up None None 6 10.

(** Ticks for the engine: at a given time, one on which every stage works,
    and one on which the alpha stage raises. *)
Definition ok_tick (time : Z) : Engine.Tick string :=
  Engine.mkTick time (λ st ctx, Some ["out"]).

Definition alpha_down (time : Z) : Engine.Tick string :=
  Engine.mkTick time
    (λ st ctx,
       match st with
       | Engine.Alpha => None
       | Engine.PortfolioConstruction =>
           (* nothing to build on when the alpha stage gave nothing *)
           Some (default [] (snd <$> last ctx))
       | _ => Some ["out"]
       end).

(** ** Notions for the further properties *)

Global Instance Qeq_decision (x y : Q) : Decision (x == y)%Q.
Proof. unfold Qeq. apply _. Defined.

(** Records are compared field by field. *)
Global Instance Q_eq_dec : EqDecision Q.
Proof. solve_decision. Defined.

Global Instance CoarseFundamental_eq_dec : EqDecision CoarseFundamental.
Proof. solve_decision. Defined.

(** The number of entries of [l] equal to [x]. *)
Definition occurrences {A} `{EqDecision A} (x : A) (l : list A) : nat :=
  length (filter (λ y, y = x) l).

(** [l.remove(x)] with its error: [None] is the ValueError that Python
    raises when no entry equals [x]. *)
Fixpoint list_remove {A} `{EqDecision A} (x : A) (l : list A) : option (list A) :=
  match l with
  | [] => None
  | y :: l' => if decide (y = x) then Some l' else (y ::.) <$> list_remove x l'
  end.

(** [OnSecuritiesChanged] with the error of [list.remove] kept: the first
    loop stops at a raised error, [in] and [append] raise none. *)
Definition remove_step_checked (secs : list Security) (removed : Security)
    : option (list Security) :=
  if py_in removed secs then list_remove removed secs else Some secs.

Fixpoint remove_loop_checked (secs : list Security) (removed : list Security)
    : option (list Security) :=
  match removed with
  | [] => Some secs
  | r :: rest =>
      match remove_step_checked secs r with
      | Some secs' => remove_loop_checked secs' rest
      | None => None
      end
  end.

Definition OnSecuritiesChanged_checked (secs : list Security)
    (changes : SecurityChanges) : option (list Security) :=
  match remove_loop_checked secs (RemovedSecurities changes) with
  | Some kept => Some (foldl AlphaModelTemplate.add_step kept (AddedSecurities changes))
  | None => None
  end.

(** Qualifying records of equal dollar volume are the same record. *)
Definition volumes_identify (coarse : list CoarseFundamental) : Prop :=
  ∀ a b, a ∈ filtered coarse → b ∈ filtered coarse →
         (DollarVolume a == DollarVolume b)%Q → a = b.

Definition AAPL : Security := mkSecurity "AAPL".

(** A snapshot whose qualifying records differ in dollar volume; GGG sits
    exactly on the price threshold. *)
Definition distinct_snapshot : list CoarseFundamental :=
  [ mkCoarse "AAA" 12 300 true;
    mkCoarse "GGG" 5 950 true;
    mkCoarse "DDD" (11 # 2) 800 true;
    mkCoarse "FFF" 7 500 true ].

(** The same records in descending order of dollar volume. *)
Definition ranked_snapshot : list CoarseFundamental :=
  [ mkCoarse "GGG" 5 950 true;
    mkCoarse "DDD" (11 # 2) 800 true;
    mkCoarse "FFF" 7 500 true;
    mkCoarse "AAA" 12 300 true ].

(** * Part II: theorems *)
(** ** Facts about the list primitives *)

Section PyListFacts.
Context {A : Type} `{EqDecision A}.
Implicit Types (x y : A) (l : list A).

Lemma py_in_true x l : py_in x l = true ↔ x ∈ l.
Proof. unfold py_in. apply bool_decide_eq_true. Qed.

Lemma py_in_false x l : py_in x l = false ↔ x ∉ l.
Proof. unfold py_in. apply bool_decide_eq_false. Qed.

Lemma py_remove_subseteq x l : py_remove x l ⊆ l.
Proof.
  induction l as [|y l IH]; simpl; [done|].
  destruct (decide (y = x)); set_solver.
Qed.

Lemma py_remove_absent x l : x ∉ l → py_remove x l = l.
Proof.
  induction l as [|y l IH]; simpl; intros Hx; [done|].
  apply not_elem_of_cons in Hx as [Hne Hx].
  destruct (decide (y = x)); [congruence|]. by rewrite IH.
Qed.

Lemma py_remove_NoDup x l : NoDup l → NoDup (py_remove x l).
Proof.
  induction 1 as [|y l Hy Hnd IH]; simpl; [constructor|].
  destruct (decide (y = x)); [done|].
  constructor; [|done].
  intros Hin. apply Hy. by eapply py_remove_subseteq.
Qed.

Lemma elem_of_py_remove x y l :
  NoDup l → y ∈ py_remove x l ↔ y ∈ l ∧ y ≠ x.
Proof.
  induction 1 as [|z l Hz Hnd IH]; simpl; [set_solver|].
  destruct (decide (z = x)) as [->|Hne].
  - split; [|set_solver].
    intros Hy. split; [set_solver|]. intros ->. done.
  - rewrite !elem_of_cons, IH. naive_solver.
Qed.
End PyListFacts.

(** ** AlphaModelTemplate.OnSecuritiesChanged *)

Module AlphaModelFacts.
Import AlphaModelTemplate.
Implicit Types (secs : state) (x y : Security) (changes : SecurityChanges).

Lemma remove_step_NoDup secs x : NoDup secs → NoDup (remove_step secs x).
Proof.
  intros Hnd. unfold remove_step.
  destruct (py_in x secs); [by apply py_remove_NoDup|done].
Qed.

Lemma elem_of_remove_step secs x y :
  NoDup secs → y ∈ remove_step secs x ↔ y ∈ secs ∧ y ≠ x.
Proof.
  intros Hnd. unfold remove_step.
  destruct (py_in x secs) eqn:Hin.
  - by apply elem_of_py_remove.
  - apply py_in_false in Hin. split; [|tauto].
    intros Hy. split; [done|]. by intros ->.
Qed.

Lemma remove_step_absent secs x : x ∉ secs → remove_step secs x = secs.
Proof.
  intros Hx. unfold remove_step.
  apply py_in_false in Hx. by rewrite Hx.
Qed.

Lemma remove_loop_NoDup removed secs :
  NoDup secs → NoDup (foldl remove_step secs removed).
Proof.
  revert secs. induction removed as [|r removed IH]; simpl; intros secs Hnd.
  - done.
  - by apply IH, remove_step_NoDup.
Qed.

Lemma elem_of_remove_loop removed secs y :
  NoDup secs →
  y ∈ foldl remove_step secs removed ↔ y ∈ secs ∧ y ∉ removed.
Proof.
  revert secs. induction removed as [|r removed IH]; simpl; intros secs Hnd.
  - set_solver.
  - rewrite IH by (by apply remove_step_NoDup).
    rewrite elem_of_remove_step by done.
    rewrite not_elem_of_cons. naive_solver.
Qed.

Lemma remove_loop_absent removed secs :
  (∀ r, r ∈ removed → r ∉ secs) → foldl remove_step secs removed = secs.
Proof.
  induction removed as [|r removed IH]; simpl; intros Habs; [done|].
  rewrite remove_step_absent by (apply Habs; left).
  apply IH. intros r' Hr'. apply Habs. by right.
Qed.

Lemma add_step_NoDup secs x : NoDup secs → NoDup (add_step secs x).
Proof.
  intros Hnd. unfold add_step, py_append.
  destruct (py_in x secs) eqn:Hin; simpl; [done|].
  apply py_in_false in Hin.
  apply NoDup_app. split_and!; [done| |apply NoDup_singleton].
  intros z Hz ->%list_elem_of_singleton. done.
Qed.

Lemma elem_of_add_step secs x y : y ∈ add_step secs x ↔ y ∈ secs ∨ y = x.
Proof.
  unfold add_step, py_append.
  destruct (py_in x secs) eqn:Hin; simpl.
  - apply py_in_true in Hin. split; [tauto|]. intros [?| ->]; done.
  - rewrite elem_of_app, list_elem_of_singleton. done.
Qed.

Lemma add_step_present secs x : x ∈ secs → add_step secs x = secs.
Proof.
  intros Hx. unfold add_step. apply py_in_true in Hx. by rewrite Hx.
Qed.

Lemma add_loop_NoDup added secs :
  NoDup secs → NoDup (foldl add_step secs added).
Proof.
  revert secs. induction added as [|a added IH]; simpl; intros secs Hnd.
  - done.
  - by apply IH, add_step_NoDup.
Qed.

Lemma elem_of_add_loop added secs y :
  y ∈ foldl add_step secs added ↔ y ∈ secs ∨ y ∈ added.
Proof.
  revert secs. induction added as [|a added IH]; simpl; intros secs.
  - set_solver.
  - rewrite IH, elem_of_add_step, elem_of_cons. naive_solver.
Qed.

Lemma add_loop_present added secs :
  (∀ a, a ∈ added → a ∈ secs) → foldl add_step secs added = secs.
Proof.
  induction added as [|a added IH]; simpl; intros Hpres; [done|].
  rewrite add_step_present by (apply Hpres; left).
  apply IH. intros a' Ha'. apply Hpres. by right.
Qed.

Lemma OnSecuritiesChanged_NoDup secs changes :
  NoDup secs → NoDup (OnSecuritiesChanged secs changes).
Proof.
  intros Hnd. unfold OnSecuritiesChanged.
  by apply add_loop_NoDup, remove_loop_NoDup.
Qed.

Lemma elem_of_OnSecuritiesChanged secs changes y :
  NoDup secs →
  y ∈ OnSecuritiesChanged secs changes ↔
    (y ∈ secs ∧ y ∉ RemovedSecurities changes) ∨ y ∈ AddedSecurities changes.
Proof.
  intros Hnd. unfold OnSecuritiesChanged.
  by rewrite elem_of_add_loop, elem_of_remove_loop.
Qed.

(** Whatever the changes, a second notification keeps the membership of a
    duplicate-free list. *)
Lemma OnSecuritiesChanged_twice_members secs changes y :
  NoDup secs →
  y ∈ OnSecuritiesChanged (OnSecuritiesChanged secs changes) changes ↔
  y ∈ OnSecuritiesChanged secs changes.
Proof.
  intros Hnd.
  rewrite (elem_of_OnSecuritiesChanged (OnSecuritiesChanged _ _))
    by (by apply OnSecuritiesChanged_NoDup).
  rewrite !elem_of_OnSecuritiesChanged by done. tauto.
Qed.

Lemma after_notifications_NoDup history : NoDup (after_notifications history).
Proof.
  unfold after_notifications.
  assert (Hgen : ∀ secs, NoDup secs → NoDup (foldl OnSecuritiesChanged secs history)).
  { induction history as [|c history IH]; simpl; intros secs Hnd; [done|].
    by apply IH, OnSecuritiesChanged_NoDup. }
  apply Hgen. constructor.
Qed.

End AlphaModelFacts.

(** ** The claims on AlphaModelTemplate *)

Section AlphaModelClaims.
Import AlphaModelTemplate AlphaModelFacts.

(** A second call with the same changes finds nothing left to remove and
    nothing left to add. *)
Lemma OnSecuritiesChanged_twice (secs : state) (changes : SecurityChanges) :
  NoDup secs →
  disjoint_changes changes →
  OnSecuritiesChanged (OnSecuritiesChanged secs changes) changes
  = OnSecuritiesChanged secs changes.
Proof.
  intros Hnd Hdisj.
  set (once := OnSecuritiesChanged secs changes).
  unfold OnSecuritiesChanged at 1.
  rewrite remove_loop_absent.
  - apply add_loop_present. intros a Ha.
    apply elem_of_OnSecuritiesChanged; auto.
  - intros r Hr Hin. apply elem_of_OnSecuritiesChanged in Hin; [|done].
    destruct Hin as [[_ Hnr]|Ha]; [done|]. by apply (Hdisj r).
Qed.

(** C3.  [OnSecuritiesChanged] is idempotent: in every state of
    [self.securities] that the model reaches from [__init__] through its
    notifications, and for every changes value of the data model (the diff
    of two sets, so added and removed are disjoint), calling it twice in a
    row with the same changes leaves [self.securities] as calling it once
    does. *)
Theorem OnSecuritiesChanged_idempotent
    (history : list SecurityChanges) (changes : SecurityChanges) :
  disjoint_changes changes →
  let secs := after_notifications history in
  OnSecuritiesChanged (OnSecuritiesChanged secs changes) changes
  = OnSecuritiesChanged secs changes.
Proof.
  intros Hdisj secs.
  apply OnSecuritiesChanged_twice; [|done].
  apply after_notifications_NoDup.
Qed.

Lemma OnSecuritiesChanged_idempotent_witness :
  let secs := after_notifications [mkChanges [SPY; MSFT] []] in
  OnSecuritiesChanged (OnSecuritiesChanged secs (mkChanges [AAPL] [SPY]))
                      (mkChanges [AAPL] [SPY])
  = OnSecuritiesChanged secs (mkChanges [AAPL] [SPY]).
Proof.
  apply (OnSecuritiesChanged_idempotent
           [mkChanges [SPY; MSFT] []] (mkChanges [AAPL] [SPY])).
  intros x Hx Hr. simpl in Hx, Hr.
  apply list_elem_of_singleton in Hx. apply list_elem_of_singleton in Hr.
  subst x. discriminate Hr.
Defined.

(** The diffs of the registry are changes values of the data model. *)
Lemma notification_disjoint (old new : gset Symbol) :
  disjoint_changes (notification (SecurityRegistry.diff old new)).
Proof.
  intros x Hadd Hrem. unfold notification in Hadd, Hrem. simpl in Hadd, Hrem.
  apply list_elem_of_fmap in Hadd as (sym & -> & Hadd).
  apply list_elem_of_fmap in Hrem as (sym' & [= <-] & Hrem).
  apply elem_of_elements, elem_of_difference in Hadd as [_ Hadd].
  apply elem_of_elements, elem_of_difference in Hrem as [Hrem _]. done.
Qed.

Example OnSecuritiesChanged_small :
  OnSecuritiesChanged [SPY; MSFT] (mkChanges [AAPL] [SPY]) = [MSFT; AAPL].
Proof. reflexivity. Qed.

(** C4.  [AlphaModelTemplate.Update] returns no insight at all, so every
    insight it returns is for a symbol that is tradable in the algorithm,
    whatever the list of securities, the algorithm and the slice. *)
Theorem Update_only_tradable (secs : state) (algorithm : QCAlgorithm) (data : Slice) :
  Update secs algorithm data = []
  ∧ Forall (λ i, tradable algorithm (ins_Symbol i) = true)
           (Update secs algorithm data).
Proof. split; [reflexivity|]. unfold Update. constructor. Qed.

(** C10.  Every list [self.securities] reached from [__init__] through
    calls of [OnSecuritiesChanged] has no duplicates, the next call keeps
    it so, and after that call every added security is in the list. *)
Theorem OnSecuritiesChanged_invariant
    (history : list SecurityChanges) (changes : SecurityChanges) :
  let secs := after_notifications history in
  NoDup secs
  ∧ NoDup (OnSecuritiesChanged secs changes)
  ∧ ∀ added, added ∈ AddedSecurities changes →
             added ∈ OnSecuritiesChanged secs changes.
Proof.
  intros secs.
  assert (Hnd : NoDup secs) by apply after_notifications_NoDup.
  split_and!; [done|by apply OnSecuritiesChanged_NoDup|].
  intros added Hadd. apply elem_of_OnSecuritiesChanged; auto.
Qed.

End AlphaModelClaims.

(** ** Filters and sorted lists *)

Section ListFacts.
Context {A : Type}.

Lemma filter_all (P : A → Prop) `{∀ x, Decision (P x)} (l : list A) :
  Forall P l → filter P l = l.
Proof.
  induction 1 as [|x l Hx Hl IH]; [done|].
  by rewrite filter_cons_True, IH.
Qed.

Lemma filter_none (P : A → Prop) `{∀ x, Decision (P x)} (l : list A) :
  Forall (λ x, ¬ P x) l → filter P l = [].
Proof.
  induction 1 as [|x l Hx Hl IH]; [done|].
  by rewrite filter_cons_False.
Qed.

Lemma StronglySorted_weaken (R1 R2 : relation A) (l : list A) :
  (∀ x y, R1 x y → R2 x y) → StronglySorted R1 l → StronglySorted R2 l.
Proof.
  intros Himpl. induction 1 as [|x l Hl IH Hx]; constructor; [done|].
  eapply Forall_impl; [exact Hx|]. auto.
Qed.
End ListFacts.

(** ** The stable sort *)

Section StableSortFacts.
Context {A : Type} (goes_before : A → A → bool).
Local Abbreviation R := (λ x y, goes_before x y = true).
Hypothesis before_total : ∀ x y, goes_before x y = false → goes_before y x = true.
Hypothesis before_trans : ∀ x y z,
  goes_before x y = true → goes_before y z = true → goes_before x z = true.

Lemma insert_sorted_Permutation x l : insert_sorted goes_before x l ≡ₚ x :: l.
Proof.
  induction l as [|y l IH]; simpl; [done|].
  destruct (goes_before x y); [done|].
  rewrite IH. apply Permutation_swap.
Qed.

Lemma stable_sort_Permutation l : stable_sort goes_before l ≡ₚ l.
Proof.
  induction l as [|x l IH]; simpl; [done|].
  by rewrite insert_sorted_Permutation, IH.
Qed.

Lemma insert_sorted_StronglySorted x l :
  StronglySorted R l → StronglySorted R (insert_sorted goes_before x l).
Proof using before_total before_trans.
  induction 1 as [|y l Hl IH Hy]; simpl.
  - repeat constructor.
  - destruct (goes_before x y) eqn:Hxy.
    + constructor; [by constructor|].
      constructor; [done|].
      eapply Forall_impl; [exact Hy|].
      intros z Hyz. by apply (before_trans x y z).
    + constructor; [done|].
      rewrite insert_sorted_Permutation.
      constructor; [|done]. by apply before_total.
Qed.

Lemma stable_sort_StronglySorted l : StronglySorted R (stable_sort goes_before l).
Proof using before_total before_trans.
  induction l as [|x l IH]; simpl; [constructor|].
  by apply insert_sorted_StronglySorted.
Qed.
End StableSortFacts.

(** ** Lists sorted from the highest key down *)

Section Ranked.
Context {A : Type} (key : A → Q).

Definition ranked_before : relation A := λ x y, (key y <= key x)%Q.

Lemma py_sorted_reverse_Permutation l : py_sorted_reverse key l ≡ₚ l.
Proof. apply stable_sort_Permutation. Qed.

Lemma py_sorted_reverse_sorted l :
  StronglySorted ranked_before (py_sorted_reverse key l).
Proof.
  unfold py_sorted_reverse.
  eapply StronglySorted_weaken; [|apply stable_sort_StronglySorted].
  - intros x y Hxy. by apply Qle_bool_iff.
  - intros x y Hxy. apply Qle_bool_iff.
    destruct (Qlt_le_dec (key x) (key y)) as [Hlt|Hle]; [by apply Qlt_le_weak|].
    apply Qle_bool_iff in Hle. congruence.
  - intros x y z Hxy Hyz. apply Qle_bool_iff.
    apply Qle_bool_iff in Hxy. apply Qle_bool_iff in Hyz.
    by eapply Qle_trans.
Qed.

(** In a ranked list, the records at or above a threshold form a
    prefix. *)
Lemma ranked_filter_prefix (T : Q) l :
  StronglySorted ranked_before l →
  filter (λ x, (T <= key x)%Q) l
  = take (length (filter (λ x, (T <= key x)%Q) l)) l.
Proof.
  induction 1 as [|x l Hl IH Hx]; [done|].
  destruct (decide (T <= key x)%Q) as [HT|HT].
  - rewrite filter_cons_True by done. simpl. by rewrite <- IH.
  - rewrite filter_cons_False by done.
    assert (Hnil : filter (λ y, (T <= key y)%Q) l = []).
    { apply filter_none. eapply Forall_impl; [exact Hx|].
      intros y Hxy HTy. apply HT. by eapply Qle_trans. }
    rewrite Hnil. done.
Qed.
End Ranked.

Section RankedCut.
Context {A : Type} (key : A → Q).
Implicit Types (l r : list A).

Lemma ranked_split n l x y :
  StronglySorted (ranked_before key) l →
  x ∈ take n l → y ∈ drop n l → (key y <= key x)%Q.
Proof.
  intros Hl Hx Hy. rewrite <- (take_drop n l) in Hl.
  by apply (StronglySorted_app_1_elem_of _ _ _ x y Hl).
Qed.

(** The records in front of a cut that separates two different keys are
    the records at or above the key in front of the cut. *)
Lemma ranked_take_filter n l a b :
  StronglySorted (ranked_before key) l →
  l !! n = Some a → l !! S n = Some b → ¬ (key a == key b)%Q →
  filter (λ x, (key a <= key x)%Q) l = take (S n) l.
Proof.
  intros Hl Ha Hb Hne.
  assert (Hba : (key b < key a)%Q).
  { assert (Hle : (key b <= key a)%Q).
    { apply (ranked_split (S n) l); [done| |].
      - apply elem_of_take. exists n. split; [done|lia].
      - rewrite (drop_S _ _ _ Hb). left. }
    apply Qle_lteq in Hle as [Hlt|Heq]; [done|].
    exfalso. apply Hne. by symmetry. }
  rewrite <- (take_drop (S n) l) at 1. rewrite filter_app.
  rewrite filter_all, filter_none; [by rewrite app_nil_r| |].
  - apply Forall_forall. intros y Hy Hay.
    assert (Hyb : (key y <= key b)%Q).
    { rewrite (drop_S _ _ _ Hb) in Hy.
      apply elem_of_cons in Hy as [->|Hy]; [apply Qle_refl|].
      apply (ranked_split (S (S n)) l); [done| |done].
      apply elem_of_take. exists (S n). split; [done|lia]. }
    apply (Qlt_irrefl (key a)).
    eapply Qle_lt_trans; [exact Hay|]. by eapply Qle_lt_trans.
  - apply Forall_forall. intros x Hx.
    rewrite (take_S_r _ _ _ Ha) in Hx.
    apply elem_of_app in Hx as [Hx|Hx].
    + apply (ranked_split n l); [done|done|].
      rewrite (drop_S _ _ _ Ha). left.
    + apply list_elem_of_singleton in Hx as ->. apply Qle_refl.
Qed.

(** Two rankings of the same records agree on the records in front of a
    cut that does not fall between equal keys. *)
Lemma ranked_take_Permutation n r1 r2 :
  StronglySorted (ranked_before key) r1 →
  StronglySorted (ranked_before key) r2 →
  r1 ≡ₚ r2 →
  (∀ a b, r1 !! n = Some a → r1 !! S n = Some b → ¬ (key a == key b)%Q) →
  take (S n) r1 ≡ₚ take (S n) r2.
Proof.
  intros H1 H2 Hperm Hcut.
  destruct (r1 !! S n) as [b|] eqn:Hb.
  - destruct (lookup_lt_is_Some_2 r1 n) as [a Ha].
    { apply lookup_lt_Some in Hb. lia. }
    rewrite <- (ranked_take_filter n r1 a b) by auto.
    assert (Hlen : length (filter (λ x, (key a <= key x)%Q) r2) = S n).
    { rewrite <- Hperm. rewrite (ranked_take_filter n r1 a b) by auto.
      apply length_take_le. apply lookup_lt_Some in Hb. lia. }
    rewrite <- Hlen. rewrite <- ranked_filter_prefix by done.
    by rewrite Hperm.
  - apply lookup_ge_None in Hb.
    rewrite !take_ge; [done| |done].
    by rewrite <- Hperm.
Qed.
End RankedCut.

(** ** The claims on SelectCoarse *)

Section SelectCoarseClaims.
Implicit Types (coarse : list CoarseFundamental) (cf : CoarseFundamental).

Lemma qualifies_iff cf :
  Is_true (qualifies cf) ↔ HasFundamentalData cf = true ∧ (5 < Price cf)%Q.
Proof.
  unfold qualifies. rewrite andb_True, Is_true_true, negb_True, Is_true_false.
  apply and_iff_compat_l. split.
  - intros Hle. apply Qnot_le_lt. intros H5. apply Qle_bool_iff in H5. congruence.
  - intros Hlt. apply not_true_is_false. intros H5.
    apply Qle_bool_iff in H5. by apply Qlt_not_le in Hlt.
Qed.

Lemma sortedbyDollarVolume_Permutation coarse :
  sortedbyDollarVolume coarse ≡ₚ filtered coarse.
Proof. apply py_sorted_reverse_Permutation. Qed.

Lemma sortedbyDollarVolume_sorted coarse :
  StronglySorted (ranked_before DollarVolume) (sortedbyDollarVolume coarse).
Proof. apply py_sorted_reverse_sorted. Qed.

Lemma SelectCoarse_take coarse :
  SelectCoarse coarse = cf_Symbol <$> take 50 (sortedbyDollarVolume coarse).
Proof. unfold SelectCoarse. by rewrite fmap_take. Qed.

Example SelectCoarse_small : SelectCoarse small_snapshot = ["DDD"; "AAA"; "EEE"].
Proof. reflexivity. Qed.

(** C1.  [SelectCoarse] returns the symbols of a ranking of the records
    that have fundamental data and a price above 5: the ranking holds
    exactly those records, dollar volume never increases along it, the
    result is its first 50 entries (no dropped record has a higher dollar
    volume than a kept one), and the result has at most 50 symbols. *)
Theorem SelectCoarse_top50 coarse :
  ∃ ranked : list CoarseFundamental,
    ranked ≡ₚ filter (λ cf, HasFundamentalData cf = true ∧ (5 < Price cf)%Q) coarse
    ∧ StronglySorted (λ a b, (DollarVolume b <= DollarVolume a)%Q) ranked
    ∧ SelectCoarse coarse = cf_Symbol <$> take 50 ranked
    ∧ (∀ kept dropped, kept ∈ take 50 ranked → dropped ∈ drop 50 ranked →
         (DollarVolume dropped <= DollarVolume kept)%Q)
    ∧ (length (SelectCoarse coarse) ≤ 50)%nat.
Proof.
  exists (sortedbyDollarVolume coarse). split_and!.
  - rewrite sortedbyDollarVolume_Permutation. unfold filtered.
    erewrite list_filter_iff; [done|]. apply qualifies_iff.
  - apply sortedbyDollarVolume_sorted.
  - apply SelectCoarse_take.
  - intros kept dropped Hk Hd.
    apply (ranked_split DollarVolume 50 (sortedbyDollarVolume coarse));
      [apply sortedbyDollarVolume_sorted|done|done].
  - unfold SelectCoarse. rewrite length_take. lia.
Qed.

(** C2, counterexample.  The 51 records of [tied_snapshot] all qualify and
    have the same dollar volume; the sort keeps them in input order, so
    the cut drops the last one.  The snapshot and its reverse hold the
    same records, yet S0 is selected from the first and not from the
    second. *)
Lemma SelectCoarse_depends_on_order :
  tied_snapshot ≡ₚ reverse tied_snapshot
  ∧ "S0" ∈ SelectCoarse tied_snapshot
  ∧ "S0" ∉ SelectCoarse (reverse tied_snapshot).
Proof.
  split_and!.
  - symmetry. apply reverse_Permutation.
  - apply (bool_decide_unpack _). vm_compute. exact I.
  - apply (bool_decide_unpack _). vm_compute. exact I.
Qed.

(** C2, amended.  Two snapshots that hold the same records in different
    orders yield the same set of symbols, provided the cut after the 50th
    ranked record does not separate two records of equal dollar volume
    (as when at most 50 records qualify). *)
Theorem SelectCoarse_order_independent (coarse1 coarse2 : list CoarseFundamental) :
  coarse1 ≡ₚ coarse2 →
  no_tie_at_cut coarse1 →
  list_to_set (SelectCoarse coarse1) =@{gset Symbol} list_to_set (SelectCoarse coarse2).
Proof.
  intros Hperm Hcut.
  assert (Htake : take 50 (sortedbyDollarVolume coarse1)
                  ≡ₚ take 50 (sortedbyDollarVolume coarse2)).
  { apply (ranked_take_Permutation DollarVolume).
    - apply sortedbyDollarVolume_sorted.
    - apply sortedbyDollarVolume_sorted.
    - rewrite !sortedbyDollarVolume_Permutation. unfold filtered. by rewrite Hperm.
    - exact Hcut. }
  rewrite !SelectCoarse_take. apply set_eq. intros sym.
  rewrite !elem_of_list_to_set. by rewrite Htake.
Qed.

Lemma SelectCoarse_order_independent_witness :
  list_to_set (SelectCoarse small_snapshot)
  =@{gset Symbol} list_to_set (SelectCoarse (reverse small_snapshot)).
Proof.
  apply (SelectCoarse_order_independent small_snapshot (reverse small_snapshot)).
  - symmetry. apply reverse_Permutation.
  - intros a b Ha. vm_compute in Ha. discriminate Ha.
Defined.

End SelectCoarseClaims.

(** ** The security registry *)

Section RegistryClaims.
Import SecurityRegistry.
Implicit Types (r : registry) (c : changes) (sym : Symbol).

Lemma elem_of_tracked r sym : sym ∈ tracked r ↔ known r !! sym = Some true.
Proof.
  unfold tracked. rewrite elem_of_dom. unfold is_Some.
  setoid_rewrite map_lookup_filter_Some. simpl. naive_solver.
Qed.

Lemma lookup_apply c r sym :
  known (apply c r) !! sym =
    if decide (sym ∈ added c) then Some true
    else (λ flag, if decide (sym ∈ removed c) then false else flag) <$> known r !! sym.
Proof.
  unfold apply. simpl. rewrite lookup_union, lookup_gset_to_gmap, map_lookup_imap.
  destruct (decide (sym ∈ added c)) as [Hin|Hout].
  - rewrite option_guard_True by done. simpl.
    by destruct (known r !! sym).
  - rewrite option_guard_False by done. simpl.
    by destruct (known r !! sym).
Qed.

Lemma tracked_apply c r : tracked (apply c r) = (tracked r ∖ removed c) ∪ added c.
Proof.
  apply set_eq. intros sym.
  rewrite elem_of_union, elem_of_difference, !elem_of_tracked, lookup_apply.
  destruct (decide (sym ∈ added c)) as [Hin|Hout]; [naive_solver|].
  destruct (known r !! sym) as [flag|]; simpl; [|naive_solver].
  destruct (decide (sym ∈ removed c)); naive_solver.
Qed.

Lemma diff_disjoint (old new : gset Symbol) :
  added (diff old new) ∩ removed (diff old new) = ∅.
Proof. unfold diff. simpl. set_solver. Qed.

(** The registry tracks the snapshot it was given last. *)
Lemma tracked_select r snapshot : tracked (select r snapshot).1 = snapshot.
Proof.
  unfold select. cbn [fst]. rewrite tracked_apply. unfold diff. cbn [added removed].
  generalize (tracked r). intros old.
  apply set_eq. intros sym.
  rewrite elem_of_union, !elem_of_difference.
  destruct (decide (sym ∈ old)), (decide (sym ∈ snapshot)); tauto.
Qed.

Lemma diff_rebuilds (old new : gset Symbol) :
  new = (old ∖ removed (diff old new)) ∪ added (diff old new).
Proof.
  unfold diff. cbn [added removed]. apply set_eq. intros sym.
  rewrite elem_of_union, !elem_of_difference.
  destruct (decide (sym ∈ old)), (decide (sym ∈ new)); tauto.
Qed.

(** A snapshot equal to the tracked set emits nothing, any other snapshot
    emits its diff. *)
Lemma select_emission r snapshot :
  (select r snapshot).2
  = if decide (snapshot = tracked r) then None
    else Some (mkEmission (tracked r) (diff (tracked r) snapshot) snapshot).
Proof.
  unfold select. cbn [snd].
  destruct (decide (snapshot = tracked r)) as [->|Hne].
  - rewrite decide_True; [done|]. unfold diff. cbn [added removed].
    split; apply set_eq; intros sym; rewrite elem_of_difference, elem_of_empty; tauto.
  - rewrite decide_False; [done|]. intros [Hadd Hrem]. apply Hne.
    rewrite (diff_rebuilds (tracked r) snapshot), Hadd, Hrem.
    apply set_eq. intros sym.
    rewrite elem_of_union, elem_of_difference, elem_of_empty. tauto.
Qed.

Lemma run_cons r snapshot rest :
  run r (snapshot :: rest)
  = match (select r snapshot).2 with
    | Some e => e :: run (select r snapshot).1 rest
    | None => run (select r snapshot).1 rest
    end.
Proof. cbn [run]. by destruct (select r snapshot) as [r' [e|]]. Qed.

Example registry_run_small :
  (λ e, (elements (added (diff_of e)), elements (removed (diff_of e)))) <$>
    run empty [ {["SPY"; "MSFT"]}; {["SPY"; "MSFT"]}; {["MSFT"; "AAPL"]} ]
  = [ (elements ({["SPY"; "MSFT"]} : gset Symbol), []); (["AAPL"], ["SPY"]) ].
Proof. vm_compute. reflexivity. Qed.

(** C5.  For every registry and every sequence of universe snapshots, each
    emitted diff has disjoint added and removed sets, and the newly
    selected set is the previously tracked set minus the removed symbols
    plus the added ones, the added symbols being those selected and not
    tracked and the removed ones those tracked and not selected.  The
    diffs follow the snapshots: each starts from the set the one before it
    led to, the first from the set the registry tracked, and the registry
    ends up tracking the last snapshot. *)
Theorem registry_changes_consistent (r : registry) (snapshots : list (gset Symbol)) :
  Forall (λ e, added (diff_of e) ∩ removed (diff_of e) = ∅
               ∧ new_set e = (old_set e ∖ removed (diff_of e)) ∪ added (diff_of e)
               ∧ added (diff_of e) = new_set e ∖ old_set e
               ∧ removed (diff_of e) = old_set e ∖ new_set e)
         (run r snapshots)
  ∧ chained (tracked r) (run r snapshots)
  ∧ new_set <$> run r snapshots `sublist_of` snapshots
  ∧ tracked (after r snapshots) = default (tracked r) (last snapshots).
Proof.
  revert r. induction snapshots as [|snapshot rest IH]; intros r.
  - split_and!; [constructor|done|done|done].
  - destruct (IH (select r snapshot).1) as (Hall & Hchain & Hsub & Hlast).
    rewrite tracked_select in Hchain, Hlast.
    rewrite run_cons, select_emission.
    assert (Hafter : tracked (after r (snapshot :: rest))
                     = default (tracked r) (last (snapshot :: rest))).
    { cbn [after foldl]. fold (after (select r snapshot).1 rest). rewrite Hlast.
      rewrite last_cons. by destruct (last rest). }
    destruct (decide (snapshot = tracked r)) as [Heq|Hne].
    + split_and!; [done|by rewrite <- Heq|by apply sublist_cons|done].
    + split_and!; [|done|by apply sublist_skip|done].
      constructor; [|done]. cbn [old_set new_set diff_of]. split_and!.
      * apply diff_disjoint.
      * apply diff_rebuilds.
      * done.
      * done.
Qed.

End RegistryClaims.

(** ** The insight store *)

Section InsightStoreClaims.
Import InsightStore.
Implicit Types (s : store) (i j : Insight) (o : op) (ops : list op).

Lemma elem_of_submit s i j : j ∈ submit s i ↔ (j ∈ s ∧ key j ≠ key i) ∨ j = i.
Proof.
  unfold submit. rewrite elem_of_app, list_elem_of_filter, list_elem_of_singleton.
  tauto.
Qed.

Lemma elem_of_expire s now j : j ∈ expire s now ↔ j ∈ s ∧ now < expiry j.
Proof. unfold expire. rewrite list_elem_of_filter. tauto. Qed.

Lemma elem_of_drop s sym j : j ∈ drop s sym ↔ j ∈ s ∧ ins_Symbol j ≠ sym.
Proof. unfold drop. rewrite list_elem_of_filter. tauto. Qed.

Lemma activeFor_Permutation s sym now :
  activeFor s sym now ≡ₚ filter (λ j, ins_Symbol j = sym ∧ now < expiry j) s.
Proof. apply stable_sort_Permutation. Qed.

Lemma elem_of_activeFor s sym now j :
  j ∈ activeFor s sym now ↔ j ∈ s ∧ ins_Symbol j = sym ∧ now < expiry j.
Proof. rewrite activeFor_Permutation, list_elem_of_filter. tauto. Qed.

(** [activeFor] lists the oldest insight first. *)
Lemma activeFor_sorted s sym now :
  StronglySorted (λ i j, GeneratedTime i ≤ GeneratedTime j) (activeFor s sym now).
Proof.
  unfold activeFor.
  eapply StronglySorted_weaken; [|apply stable_sort_StronglySorted].
  - intros i j Hij. by apply Z.leb_le.
  - intros i j Hij. apply Z.leb_le. apply Z.leb_gt in Hij. lia.
  - intros i j k Hij Hjk. apply Z.leb_le.
    apply Z.leb_le in Hij. apply Z.leb_le in Hjk. lia.
Qed.

Lemma exec_keeps i now o s :
  spares i now o → now < expiry i → i ∈ s → i ∈ exec s o.
Proof.
  intros Hsp Hnow Hin. destruct o as [j|t|sym]; simpl in *.
  - apply elem_of_submit. left. split; [done|]. congruence.
  - apply elem_of_expire. split; [done|lia].
  - apply elem_of_drop. split; [done|]. congruence.
Qed.

Lemma execs_keeps i now ops s :
  Forall (spares i now) ops → now < expiry i → i ∈ s → i ∈ execs s ops.
Proof.
  intros Hops Hnow. revert s.
  induction Hops as [|o ops Ho Hops IH]; intros s Hin; simpl; [done|].
  apply IH. by eapply exec_keeps.
Qed.

Example activeFor_small :
  activeFor (execs empty [Submit up_SPY; Submit flat_SPY; Submit up_MSFT]) "SPY" 7
  = [up_SPY; flat_SPY]
  ∧ activeFor (execs empty [Submit up_SPY; Submit flat_SPY; Submit down_SPY]) "SPY" 7
    = [down_SPY; flat_SPY]
  ∧ activeFor (execs empty [Submit up_SPY; Submit flat_SPY; Expire 10]) "SPY" 10
    = [flat_SPY].
Proof. vm_compute. done. Qed.

(** C6, counterexample.  The insight [up_SPY], generated at 0 with period
    10, is submitted and never superseded; the store then drops the
    insights of SPY because the security lost its tradable flag.  At time
    1, inside the period, [activeFor] no longer returns it. *)
Lemma dropped_insight_not_active :
  let s := execs empty [Submit up_SPY; Drop "SPY"] in
  GeneratedTime up_SPY ≤ 1 < GeneratedTime up_SPY + Period up_SPY
  ∧ up_SPY ∉ activeFor s "SPY" 1.
Proof.
  split; [vm_compute; split; [discriminate|reflexivity]|].
  vm_compute. apply not_elem_of_nil.
Qed.

(** C6, amended.  An insight with period P submitted at time t that is not
    superseded, and whose symbol is not dropped from the store, is
    returned by [activeFor(symbol, t')] exactly when t' < t + P: for every
    t' with t <= t' < t + P it is included, for every t' >= t + P it is
    excluded.  The purges before the query are at times up to t'. *)
Theorem insight_active_until_expiry s i ops (t' : Z) :
  Forall (spares i t') ops →
  i ∈ activeFor (execs (submit s i) ops) (ins_Symbol i) t'
  ↔ t' < GeneratedTime i + Period i.
Proof.
  intros Hops. rewrite elem_of_activeFor. unfold expiry. split.
  - by intros (_ & _ & Hlt).
  - intros Hlt. split_and!; [|done|done].
    apply (execs_keeps i t'); [done|done|].
    apply elem_of_submit. by right.
Qed.

Lemma insight_active_until_expiry_witness :
  up_SPY ∈ activeFor (execs (submit [flat_SPY] up_SPY)
                            [Submit up_MSFT; Expire 3; Drop "AAPL"])
                     (ins_Symbol up_SPY) 4
  ↔ 4 < GeneratedTime up_SPY + Period up_SPY.
Proof.
  apply (insight_active_until_expiry [flat_SPY] up_SPY
           [Submit up_MSFT; Expire 3; Drop "AAPL"] 4).
  repeat constructor; simpl; [discriminate|lia|discriminate].
Defined.

(** *** Supersession *)

Lemma filter_fmap_NoDup {B} (f : Insight → B) (P : Insight → Prop)
    `{∀ x, Decision (P x)} s :
  NoDup (f <$> s) → NoDup (f <$> filter P s).
Proof.
  intros Hnd. eapply sublist_NoDup; [exact Hnd|].
  apply fmap_sublist, sublist_filter.
Qed.

Lemma submit_one_per_producer s i :
  one_per_producer s → one_per_producer (submit s i).
Proof.
  unfold one_per_producer, submit. intros Hnd.
  rewrite fmap_app. apply NoDup_app. split_and!.
  - by apply filter_fmap_NoDup.
  - intros k Hk Hk'. apply list_elem_of_singleton in Hk'. subst k.
    apply list_elem_of_fmap in Hk as (j & Hkey & Hj).
    apply list_elem_of_filter in Hj as [Hne _]. congruence.
  - apply NoDup_singleton.
Qed.

Lemma exec_one_per_producer s o :
  one_per_producer s → one_per_producer (exec s o).
Proof.
  destruct o as [j|t|sym]; simpl.
  - apply submit_one_per_producer.
  - apply filter_fmap_NoDup.
  - apply filter_fmap_NoDup.
Qed.

Lemma execs_one_per_producer ops s :
  one_per_producer s → one_per_producer (execs s ops).
Proof.
  revert s. induction ops as [|o ops IH]; intros s Hs; simpl; [done|].
  by apply IH, exec_one_per_producer.
Qed.

Lemma submit_held s i : filter (λ j, key j = key i) (submit s i) = [i].
Proof.
  unfold submit. rewrite filter_app, list_filter_filter.
  rewrite filter_none by (apply Forall_forall; tauto).
  by rewrite filter_cons_True.
Qed.

Lemma activeOf_submit s i now :
  now < expiry i → activeOf (submit s i) (key i) now = [i].
Proof.
  intros Hnow. apply Permutation_singleton_r.
  unfold activeOf. rewrite activeFor_Permutation. simpl.
  rewrite list_filter_filter.
  erewrite list_filter_iff.
  - rewrite <- (list_filter_filter
                 (λ j, now < expiry j) (λ j, key j = key i)).
    rewrite submit_held. by rewrite filter_cons_True.
  - intros j. unfold key. simpl. split.
    + intros (Hsrc & Hsym & Hexp). split; [done|congruence].
    + intros [Hexp [= Hsym Hsrc]]. done.
Qed.

(** C7.  On a store built by the engine, submitting an insight and later
    another one of the same source for the same symbol leaves exactly one
    insight for that pair, the later one: the earlier one is gone, the
    later one is the only one held and the only one active as long as it
    has not expired; and at most one insight per (symbol, source) pair is
    held after each of the two submits. *)
Theorem submit_supersedes (ops mid : list op) (i1 i2 : Insight) :
  key i1 = key i2 →
  let s1 := submit (execs empty ops) i1 in
  let s2 := submit (execs s1 mid) i2 in
  filter (λ j, key j = key i2) s2 = [i2]
  ∧ (∀ now, now < expiry i2 → activeOf s2 (key i2) now = [i2])
  ∧ (i1 ≠ i2 → i1 ∉ s2)
  ∧ one_per_producer s1
  ∧ one_per_producer s2.
Proof.
  intros Hkey s1 s2.
  assert (H1 : one_per_producer s1).
  { apply submit_one_per_producer, execs_one_per_producer. constructor. }
  split_and!.
  - apply submit_held.
  - intros now Hnow. by apply activeOf_submit.
  - intros Hne Hin. apply elem_of_submit in Hin as [[_ Hk]|Heq]; congruence.
  - done.
  - by apply submit_one_per_producer, execs_one_per_producer.
Qed.

Lemma submit_supersedes_witness :
  let s1 := submit (execs empty [Submit flat_SPY]) up_SPY in
  let s2 := submit (execs s1 [Submit up_MSFT; Expire 3]) down_SPY in
  filter (λ j, key j = key down_SPY) s2 = [down_SPY]
  ∧ (∀ now, now < expiry down_SPY → activeOf s2 (key down_SPY) now = [down_SPY])
  ∧ (up_SPY ≠ down_SPY → up_SPY ∉ s2)
  ∧ one_per_producer s1
  ∧ one_per_producer s2.
Proof.
  apply (submit_supersedes [Submit flat_SPY] [Submit up_MSFT; Expire 3]
           up_SPY down_SPY).
  reflexivity.
Defined.

End InsightStoreClaims.

(** ** Equal weighting portfolio construction *)

Section EqualWeightingClaims.
Import EqualWeighting.
Implicit Types (active : gmap Symbol (list Insight)) (universe : gset Symbol).
Local Open Scope Q_scope.

Lemma most_recent_is_Some (l : list Insight) : l ≠ [] → is_Some (most_recent l).
Proof.
  destruct l as [|x l]; [done|]. intros _. unfold most_recent. simpl.
  generalize x. induction l as [|y l IH]; intros b; simpl; [by eexists|].
  destruct (GeneratedTime b <=? GeneratedTime y)%Z; apply IH.
Qed.

Lemma share_nonneg n : 0 <= share n.
Proof. destruct n; simpl; [apply Qle_refl|]. unfold Qle. simpl. lia. Qed.

Lemma share_total n : (n ≠ 0)%nat → inject_Z (Z.of_nat n) * share n == 1.
Proof.
  destruct n as [|m]; [done|]. intros _. unfold share, Qeq, Qmult, inject_Z.
  cbn [Qnum Qden]. rewrite <- Pos.of_nat_succ. lia.
Qed.

Lemma signalled_insights active sym :
  signalled active sym = true → insights_of active sym ≠ [].
Proof. unfold signalled. by destruct (insights_of active sym). Qed.

(** Every symbol that counts gets the absolute weight [1/N], whatever the
    side. *)
Lemma weight_abs flat_side active n sym :
  signalled active sym = true →
  Qabs (weight flat_side active n sym) == share n.
Proof.
  intros Hsig. unfold weight. rewrite Hsig.
  destruct (most_recent_is_Some (insights_of active sym)) as [i Hi].
  { by apply signalled_insights. }
  rewrite Hi, Qabs_Qmult, (Qabs_pos (share n)) by apply share_nonneg.
  destruct (side_of flat_side (Direction i)); simpl; apply Qmult_1_l.
Qed.

Lemma exposure_count flat_side active n (syms : list Symbol) :
  signalled_exposure active
    ((λ sym, mkTarget sym (weight flat_side active n sym)) <$> syms)
  == inject_Z (Z.of_nat (length (filter (λ sym, Is_true (signalled active sym)) syms)))
     * share n.
Proof.
  unfold signalled_exposure.
  induction syms as [|sym syms IH]; [done|].
  rewrite fmap_cons. destruct (signalled active sym) eqn:Hsig.
  - rewrite (filter_cons_True _ (mkTarget _ _)) by (by apply Is_true_true).
    rewrite (filter_cons_True _ sym) by (by apply Is_true_true).
    rewrite fmap_cons. cbn [sumQ foldr length compose Weight].
    unfold sumQ in IH. rewrite IH.
    rewrite weight_abs by done.
    rewrite Nat2Z.inj_succ, <- Z.add_1_l, inject_Z_plus. ring.
  - rewrite (filter_cons_False _ (mkTarget _ _)) by (by apply Is_true_false).
    rewrite (filter_cons_False _ sym) by (by apply Is_true_false).
    exact IH.
Qed.

Lemma signalled_in_symbols active universe sym :
  signalled active sym = true → sym ∈ symbols active universe.
Proof.
  intros Hsig. unfold symbols. apply elem_of_elements, elem_of_union. right.
  apply elem_of_dom. unfold signalled, insights_of in Hsig.
  by destruct (active !! sym).
Qed.

Example construct_two_signals :
  construct Long {[ "SPY" := [down_SPY]; "MSFT" := [up_MSFT] ]} {[ "AAPL" ]}
  = [ mkTarget "SPY" (-1 # 2); mkTarget "MSFT" (1 # 2); mkTarget "AAPL" 0 ].
Proof. vm_compute. reflexivity. Qed.

(** SPY has an Up insight of one source and a later Flat insight of
    another: it counts in N and keeps the absolute weight 1. *)
Example construct_flat_latest :
  let active : gmap Symbol (list Insight) :=
    {[ "SPY" := InsightStore.activeFor
                  (InsightStore.execs InsightStore.empty
                     [InsightStore.Submit up_SPY; InsightStore.Submit flat_SPY])
                  "SPY" 7 ]} in
  construct Long active {[ "SPY" ]} = [ mkTarget "SPY" 1 ]
  ∧ construct Short active {[ "SPY" ]} = [ mkTarget "SPY" (-1) ].
Proof. vm_compute. done. Qed.

(** C8.  Under equal weighting, for every set of active insights, the
    absolute target weights of the symbols with an active insight that is
    not Flat sum to 1 if there is such a symbol and to 0 if there is none,
    and no symbol gets two targets; this holds whichever side the policy
    takes for a symbol whose most recent insight is Flat. *)
Theorem equal_weighting_exposure flat_side active universe :
  let targets := construct flat_side active universe in
  ((∃ sym, signalled active sym = true) → signalled_exposure active targets == 1)
  ∧ ((∀ sym, signalled active sym = false) → signalled_exposure active targets == 0)
  ∧ NoDup (target_Symbol <$> targets).
Proof.
  intros targets. subst targets. unfold construct.
  set (syms := symbols active universe).
  set (n := length (filter (λ sym, Is_true (signalled active sym)) syms)).
  split_and!.
  - intros [sym Hsig]. rewrite exposure_count. fold n.
    apply share_total. intros Hn.
    assert (Hin : sym ∈ filter (λ sym, Is_true (signalled active sym)) syms).
    { apply list_elem_of_filter. split; [by apply Is_true_true|].
      by apply signalled_in_symbols. }
    apply length_zero_iff_nil in Hn. rewrite Hn in Hin. by apply elem_of_nil in Hin.
  - intros Hnone. rewrite exposure_count. fold n.
    assert (Hn : n = O).
    { unfold n. rewrite filter_none; [done|].
      apply Forall_forall. intros sym _. rewrite (Hnone sym). simpl. tauto. }
    rewrite Hn. simpl. ring.
  - rewrite <- list_fmap_compose.
    change (NoDup ((id : Symbol → Symbol) <$> syms)).
    rewrite list_fmap_id. apply NoDup_elements.
Qed.

Lemma equal_weighting_exposure_witness :
  let active : gmap Symbol (list Insight) :=
    {[ "SPY" := [up_SPY; flat_SPY]; "MSFT" := [up_MSFT] ]} in
  signalled_exposure active (construct Short active {[ "AAPL" ]}) == 1.
Proof.
  intros active.
  apply (equal_weighting_exposure Short active {[ "AAPL" ]}).
  exists "MSFT". reflexivity.
Defined.

End EqualWeightingClaims.

(** ** The orchestration engine *)

Section EngineClaims.
Import Engine.
Context {Item : Type}.
Implicit Types (t : Tick Item) (log : list (stage_run Item)) (st : Stage)
  (e : engine Item) (ticks : list (Tick Item)).
Local Open Scope nat_scope.

(** *** One tick *)

Lemma calls_spec t (stages : list Stage) log :
  let log' := foldl (call_stage t) log stages in
  run_stage <$> log' = (run_stage <$> log) ++ stages
  ∧ take (length log) log' = log
  ∧ ∀ i r, length log ≤ i → log' !! i = Some r → entry_ok t (take i log') r.
Proof.
  revert log. induction stages as [|st stages IH]; intros log; cbn [foldl].
  - split_and!.
    + by rewrite app_nil_r.
    + by rewrite firstn_all.
    + intros i r Hi Hr. apply lookup_lt_Some in Hr. lia.
  - destruct (IH (call_stage t log st)) as (Hstages & Htake & Hentries).
    set (log' := foldl (call_stage t) (call_stage t log st) stages) in *.
    assert (Hlen : length (call_stage t log st) = S (length log)).
    { unfold call_stage. rewrite length_app. simpl. lia. }
    assert (Htake' : take (length log) log' = log).
    { replace (length log)
        with (min (length log) (length (call_stage t log st))) at 1 by lia.
      rewrite <- take_take, Htake. unfold call_stage. by rewrite take_app_length. }
    split_and!.
    + rewrite Hstages. unfold call_stage. rewrite fmap_app.
      rewrite <- app_assoc. simpl. by destruct (tick_stage t st (outputs log)).
    + done.
    + intros i r Hi Hr.
      destruct (decide (i = length log)) as [->|Hne].
      * rewrite Htake'.
        assert (Hr' : call_stage t log st !! length log = Some r).
        { rewrite <- Htake. rewrite lookup_take_lt by lia. done. }
        unfold call_stage in Hr'. rewrite list_lookup_middle in Hr' by done.
        injection Hr' as <-.
        unfold entry_ok.
        destruct (tick_stage t st (outputs log)) as [out|] eqn:Hcall; simpl; by rewrite Hcall.
      * apply Hentries; [lia|done].
Qed.

Lemma run_tick_ok t : tick_ok t (run_tick t).
Proof.
  destruct (calls_spec t pipeline []) as (Hstages & _ & Hentries).
  split; [done|]. intros i r Hr. apply Hentries; [simpl; lia|done].
Qed.

(** *** The counters *)

Lemma fatal_true (fails : Stage → nat) :
  fatal fails = true ↔ ∃ st, threshold ≤ fails st.
Proof.
  unfold fatal. rewrite existsb_exists. split.
  - intros (st & _ & Hst). exists st. by apply Nat.leb_le.
  - intros [st Hst]. exists st. split; [|by apply Nat.leb_le].
    unfold pipeline. destruct st; simpl; tauto.
Qed.

Lemma fatal_false (fails : Stage → nat) :
  fatal fails = false ↔ ∀ st, fails st < threshold.
Proof.
  rewrite <- not_true_iff_false, fatal_true. split.
  - intros Hno st. destruct (decide (fails st < threshold)); [done|].
    exfalso. apply Hno. exists st. lia.
  - intros Hall [st Hst]. specialize (Hall st). lia.
Qed.

Lemma halted_stays e ticks : is_Some (halted e) → foldl step e ticks = e.
Proof.
  intros [h He]. induction ticks as [|t ticks IH]; simpl; [done|].
  unfold step at 2. by rewrite He.
Qed.

Lemma start_consistent : consistent (start (Item := Item)).
Proof.
  split_and!; [done|done|].
  intros k _ st. cbn [start trace_rev]. rewrite drop_nil. simpl. unfold threshold. lia.
Qed.

Lemma step_consistent e t : consistent e → consistent (step e t).
Proof.
  intros He0. unfold step.
  destruct (halted e) as [h|] eqn:He; [done|].
  destruct He0 as (Hfails & Hhalt & Hcalm).
  assert (Hquiet : fatal (failures e) = false).
  { apply not_true_is_false. intros Hf. apply Hhalt in Hf. congruence. }
  destruct (out_of_order e t).
  - split_and!; cbn [failures trace_rev halted]; [done| |done].
    split; [discriminate|congruence].
  - split_and!; cbn [failures trace_rev halted].
    + intros st. unfold count. cbn [streak]. by rewrite Hfails.
    + destruct (fatal (count (failures e) (run_tick t))); split; done.
    + intros k Hk. destruct k as [|k]; [lia|]. cbn [drop].
      destruct k as [|k]; [|apply Hcalm; lia].
      rewrite drop_0. intros st. rewrite <- Hfails.
      by apply fatal_false.
Qed.

Lemma run_consistent ticks : consistent (run ticks).
Proof.
  unfold run.
  assert (Hgen : ∀ e, consistent e → consistent (foldl step e ticks)).
  { induction ticks as [|t ticks IH]; intros e He; simpl; [done|].
    by apply IH, step_consistent. }
  apply Hgen, start_consistent.
Qed.

(** *** The trace *)

Lemma streak_three st (l3 l2 l1 : list (stage_run Item)) older :
  failed_in st l1 = true → failed_in st l2 = true → failed_in st l3 = true →
  threshold ≤ streak st (l3 :: l2 :: l1 :: older).
Proof. intros H1 H2 H3. simpl. rewrite H1, H2, H3. unfold threshold. lia. Qed.

Lemma streak_three_inv st (logs_rev : list (list (stage_run Item))) :
  threshold ≤ streak st logs_rev →
  ∃ l3 l2 l1 older,
    logs_rev = l3 :: l2 :: l1 :: older
    ∧ failed_in st l1 = true ∧ failed_in st l2 = true ∧ failed_in st l3 = true.
Proof.
  unfold threshold. intros Hst.
  destruct logs_rev as [|l3 [|l2 [|l1 older]]]; simpl in Hst; try lia.
  - destruct (failed_in st l3); lia.
  - destruct (failed_in st l3), (failed_in st l2); lia.
  - destruct (failed_in st l3) eqn:H3; [|lia].
    destruct (failed_in st l2) eqn:H2; [|lia].
    destruct (failed_in st l1) eqn:H1; [|lia].
    by exists l3, l2, l1, older.
Qed.

(** The processed ticks are the first ticks of the input, all of them
    unless the engine halted; the clock is the time of the latest of them;
    and a halt for a data ordering violation is at a tick earlier than the
    clock. *)
Lemma run_from ticks e :
  halted e = None →
  let e' := foldl step e ticks in
  ∃ m, trace e' = trace e ++ (run_tick <$> take m ticks)
       ∧ clock e' = match last (take m ticks) with
                    | Some t => Some (tick_time t)
                    | None => clock e
                    end
       ∧ (halted e' = None → m = length ticks)
       ∧ (halted e' = Some DataOrderingViolation →
          ∃ late now, ticks !! m = Some late ∧ clock e' = Some now
                      ∧ (tick_time late < now)%Z).
Proof.
  revert e. induction ticks as [|t ticks IH]; intros e He.
  - exists 0. simpl. split_and!; [by rewrite app_nil_r|done|done|congruence].
  - cbn [foldl]. unfold step at 2 4 6 8 10. rewrite He.
    destruct (out_of_order e t) eqn:Horder.
    + rewrite halted_stays by (by eexists). exists 0. cbn [halted clock].
      split_and!; [by rewrite app_nil_r|done|discriminate|].
      intros _. unfold out_of_order in Horder.
      destruct (clock e) as [now|]; [|done].
      exists t, now. split_and!; [done|done|by apply Z.ltb_lt].
    + set (e1 := {| failures := count (failures e) (run_tick t);
                    trace_rev := run_tick t :: trace_rev e;
                    clock := Some (tick_time t);
                    halted := if fatal (count (failures e) (run_tick t))
                              then Some StageFailures else None |}).
      assert (Htrace : trace e1 = trace e ++ [run_tick t]).
      { unfold trace, e1. cbn [trace_rev]. apply reverse_cons. }
      destruct (halted e1) as [h|] eqn:He1.
      * rewrite halted_stays by (by eexists). exists 1.
        assert (h = StageFailures) as ->.
        { unfold e1 in He1. cbn [halted] in He1.
          destruct (fatal _); congruence. }
        rewrite He1.
        split_and!; [by rewrite Htrace|done|discriminate|discriminate].
      * destruct (IH e1 He1) as (m & Htr & Hclock & Hall & Hlate).
        exists (S m). cbn [take fmap]. split_and!.
        -- rewrite Htr, Htrace, <- app_assoc. done.
        -- rewrite Hclock, last_cons. by destruct (last (take m ticks)).
        -- intros Hrun. simpl. f_equal. by apply Hall.
        -- intros Hdov. by apply Hlate.
Qed.

(** C9.  In every run of the engine: if a stage failed in three
    consecutive processed ticks, the engine is halted for stage failures
    and these are the last ticks it processed; it halts for stage failures
    in no other case; the processed ticks are the first ticks of the
    input, all of them unless the engine halted, and the only other halt
    is at a slice earlier than the slice before it, which slices in time
    order never bring; and in every tick all stages run in order, a stage
    that raises being recorded as failed with an empty output that the
    stages after it see. *)
Theorem engine_failure_policy ticks :
  let e := run ticks in
  (∀ st older l1 l2 l3 newer,
      trace e = older ++ [l1; l2; l3] ++ newer →
      failed_in st l1 = true → failed_in st l2 = true → failed_in st l3 = true →
      halted e = Some StageFailures ∧ newer = [])
  ∧ (halted e = Some StageFailures →
     ∃ st older l1 l2 l3,
       trace e = older ++ [l1; l2; l3]
       ∧ failed_in st l1 = true ∧ failed_in st l2 = true ∧ failed_in st l3 = true)
  ∧ (∃ m, trace e = run_tick <$> take m ticks
          ∧ (halted e = None → m = length ticks)
          ∧ (halted e = Some DataOrderingViolation →
             ∃ prev late, last (take m ticks) = Some prev ∧ ticks !! m = Some late
                          ∧ (tick_time late < tick_time prev)%Z))
  ∧ (StronglySorted Z.le (tick_time <$> ticks) →
     halted e ≠ Some DataOrderingViolation)
  ∧ (∀ t, tick_ok t (run_tick t)).
Proof.
  intros e. destruct (run_consistent ticks) as (Hfails & Hhalt & Hcalm).
  fold e in Hfails, Hhalt, Hcalm.
  destruct (run_from ticks start eq_refl) as (m & Htrace & Hclock & Hall & Hlate).
  fold (run ticks) in Htrace, Hclock, Hall, Hlate. fold e in Htrace, Hclock, Hall, Hlate.
  assert (Hdov : halted e = Some DataOrderingViolation →
                 ∃ prev late, last (take m ticks) = Some prev ∧ ticks !! m = Some late
                              ∧ (tick_time late < tick_time prev)%Z).
  { intros He. destruct (Hlate He) as (late & now & Hm & Hnow & Hlt).
    rewrite Hclock in Hnow.
    destruct (last (take m ticks)) as [prev|]; [|done].
    injection Hnow as <-. by exists prev, late. }
  split_and!.
  - intros st older l1 l2 l3 newer Htr H1 H2 H3.
    assert (Hrev : trace_rev e = reverse newer ++ l3 :: l2 :: l1 :: reverse older).
    { rewrite <- (reverse_involutive (trace_rev e)). fold (trace e).
      rewrite Htr, !reverse_app. simpl.
      rewrite !reverse_cons, reverse_nil. simpl.
      by rewrite <- !app_assoc. }
    assert (Hnewer : newer = []).
    { destruct (decide (newer = [])) as [|Hne]; [done|]. exfalso.
      assert (Hlen : 0 < length (reverse newer)).
      { rewrite length_reverse. destruct newer; [done|simpl; lia]. }
      specialize (Hcalm _ Hlen st).
      rewrite Hrev, drop_app_length in Hcalm.
      pose proof (streak_three st l3 l2 l1 (reverse older) H1 H2 H3). lia. }
    split; [|done].
    apply Hhalt, fatal_true. exists st. rewrite Hfails, Hrev, Hnewer.
    simpl. by apply streak_three.
  - intros He. apply Hhalt, fatal_true in He as [st Hst].
    rewrite Hfails in Hst.
    apply streak_three_inv in Hst as (l3 & l2 & l1 & older & Hrev & H1 & H2 & H3).
    exists st, (reverse older), l1, l2, l3. split; [|done].
    unfold trace. rewrite Hrev, !reverse_cons, <- !app_assoc. done.
  - exists m. split_and!; [by rewrite Htrace|done|done].
  - intros Hsorted He. destruct (Hdov He) as (prev & late & Hprev & Hm & Hlt).
    rewrite <- (take_drop m ticks), fmap_app in Hsorted.
    assert (tick_time prev ≤ tick_time late)%Z; [|lia].
    apply (StronglySorted_app_1_elem_of _ _ _ _ _ Hsorted).
    + apply list_elem_of_fmap_2. apply last_Some in Hprev as [l' ->].
      apply elem_of_app. right. left.
    + apply list_elem_of_fmap_2. rewrite (drop_S _ _ _ Hm). left.
  - apply run_tick_ok.
Qed.

End EngineClaims.

Section EngineRuns.
Import Engine.
Local Open Scope nat_scope.

Example engine_halts_on_third_failure :
  let e := run [ok_tick 1; alpha_down 2; alpha_down 3; alpha_down 4;
                ok_tick 5; ok_tick 6] in
  halted e = Some StageFailures ∧ length (trace e) = 4
  ∧ failures e Alpha = 3
  ∧ last (trace e) = Some [ mkRun UniverseSelection false ["out"];
                            mkRun Alpha true [];
                            mkRun PortfolioConstruction false [];
                            mkRun RiskManagement false ["out"];
                            mkRun Execution false ["out"] ].
Proof. vm_compute. done. Qed.

Example engine_continues_after_two_failures :
  let e := run [alpha_down 1; alpha_down 2; ok_tick 3; alpha_down 3; alpha_down 4] in
  halted e = None ∧ length (trace e) = 5 ∧ failures e Alpha = 2.
Proof. vm_compute. done. Qed.

Example engine_halts_on_late_slice :
  let e := run [ok_tick 5; alpha_down 3; ok_tick 6] in
  halted e = Some DataOrderingViolation ∧ length (trace e) = 1
  ∧ failures e Alpha = 0.
Proof. vm_compute. done. Qed.

Lemma engine_failure_policy_witness :
  let e := run [ok_tick 1; alpha_down 2; alpha_down 3; alpha_down 4; ok_tick 5] in
  halted e = Some StageFailures ∧ drop 4 (trace e) = [].
Proof.
  intros e.
  pose proof (engine_failure_policy
                [ok_tick 1; alpha_down 2; alpha_down 3; alpha_down 4; ok_tick 5])
    as Hpolicy.
  destruct Hpolicy as (Htriple & _).
  destruct (Htriple Alpha (take 1 (trace e))
              (run_tick (alpha_down 2)) (run_tick (alpha_down 3))
              (run_tick (alpha_down 4))
              (drop 4 (trace e))) as [Hhalted Hnewer].
  - vm_compute. reflexivity.
  - vm_compute. reflexivity.
  - vm_compute. reflexivity.
  - vm_compute. reflexivity.
  - split; [exact Hhalted|exact Hnewer].
Defined.

End EngineRuns.

(** * Part III: further properties of the template *)

(** ** More on the stable sort *)

Section StableSortMore.
Context {A : Type} (goes_before : A → A → bool).

(** The sort does not reorder entries that a predicate closed under
    [goes_before] picks out. *)
Lemma insert_sorted_filter (P : A → Prop) `{∀ x, Decision (P x)} x l :
  (∀ y, P x → P y → goes_before x y = true) →
  filter P (insert_sorted goes_before x l) = filter P (x :: l).
Proof.
  intros Hties. induction l as [|y l IH]; [done|]. simpl.
  destruct (goes_before x y) eqn:Hxy; [done|].
  rewrite (filter_cons _ y), IH, !(filter_cons _ x), (filter_cons _ y).
  destruct (decide (P x)) as [Hx|Hx]; [|done].
  destruct (decide (P y)) as [Hy|Hy]; [|done].
  rewrite (Hties y Hx Hy) in Hxy. discriminate.
Qed.

Lemma stable_sort_filter (P : A → Prop) `{∀ x, Decision (P x)} l :
  (∀ x y, P x → P y → goes_before x y = true) →
  filter P (stable_sort goes_before l) = filter P l.
Proof.
  intros Hties. induction l as [|x l IH]; [done|]. simpl.
  rewrite insert_sorted_filter by auto.
  by rewrite !(filter_cons _ x), IH.
Qed.

(** A sorted list is left as it is. *)
Lemma stable_sort_sorted l :
  StronglySorted (λ x y, goes_before x y = true) l → stable_sort goes_before l = l.
Proof.
  induction 1 as [|x l Hl IH Hx]; [done|]. simpl. rewrite IH.
  destruct Hx as [|y l' Hxy _]; [done|]. simpl. by rewrite Hxy.
Qed.
End StableSortMore.

(** ** More on SelectCoarse *)

Section SelectCoarseMore.
Implicit Types (coarse : list CoarseFundamental) (cf : CoarseFundamental).

Lemma elem_of_filtered coarse cf :
  cf ∈ filtered coarse ↔
  cf ∈ coarse ∧ HasFundamentalData cf = true ∧ (5 < Price cf)%Q.
Proof. unfold filtered. rewrite list_elem_of_filter, qualifies_iff. tauto. Qed.

Lemma filtered_filter coarse :
  filtered coarse
  = filter (λ cf, HasFundamentalData cf = true ∧ (5 < Price cf)%Q) coarse.
Proof. unfold filtered. apply list_filter_iff, qualifies_iff. Qed.

Lemma elem_of_sortedbyDollarVolume coarse cf :
  cf ∈ sortedbyDollarVolume coarse ↔ cf ∈ filtered coarse.
Proof. by rewrite sortedbyDollarVolume_Permutation. Qed.

(** X1.  [SelectCoarse] never selects on the strength of a record without
    fundamental data or with a price of 5 or less: every symbol it returns
    is the symbol of a record of the snapshot that has fundamental data
    and a price above 5. *)
Theorem SelectCoarse_sound coarse (sym : Symbol) :
  sym ∈ SelectCoarse coarse →
  ∃ cf, cf ∈ coarse ∧ cf_Symbol cf = sym
        ∧ HasFundamentalData cf = true ∧ (5 < Price cf)%Q.
Proof.
  rewrite SelectCoarse_take. intros Hsym.
  apply list_elem_of_fmap in Hsym as (cf & -> & Hcf).
  assert (Hin : cf ∈ sortedbyDollarVolume coarse).
  { eapply elem_of_sublist; [exact Hcf|apply sublist_take]. }
  apply elem_of_sortedbyDollarVolume, elem_of_filtered in Hin.
  exists cf. tauto.
Qed.

Lemma SelectCoarse_sound_witness :
  ∃ cf, cf ∈ distinct_snapshot ∧ cf_Symbol cf = "DDD"
        ∧ HasFundamentalData cf = true ∧ (5 < Price cf)%Q.
Proof.
  apply (SelectCoarse_sound distinct_snapshot "DDD").
  apply (bool_decide_unpack _). vm_compute. exact I.
Defined.

(** X2.  The number of symbols returned is the number of records with
    fundamental data and a price above 5, capped at 50. *)
Theorem SelectCoarse_length coarse :
  length (SelectCoarse coarse)
  = (length (filter (λ cf, HasFundamentalData cf = true ∧ (5 < Price cf)%Q) coarse)
     `min` 50)%nat.
Proof.
  unfold SelectCoarse.
  rewrite length_take, length_fmap, sortedbyDollarVolume_Permutation, filtered_filter.
  apply Nat.min_comm.
Qed.

(** X3.  When at most 50 records qualify nothing is cut: the result holds
    the symbol of every qualifying record, once per record. *)
Theorem SelectCoarse_complete coarse :
  (length (filter (λ cf, HasFundamentalData cf = true ∧ (5 < Price cf)%Q) coarse)
   ≤ 50)%nat →
  SelectCoarse coarse
  ≡ₚ cf_Symbol <$> filter (λ cf, HasFundamentalData cf = true ∧ (5 < Price cf)%Q) coarse.
Proof.
  intros Hlen. unfold SelectCoarse. rewrite take_ge.
  - by rewrite sortedbyDollarVolume_Permutation, filtered_filter.
  - by rewrite length_fmap, sortedbyDollarVolume_Permutation, filtered_filter.
Qed.

Lemma SelectCoarse_complete_witness :
  SelectCoarse small_snapshot
  ≡ₚ cf_Symbol <$> filter (λ cf, HasFundamentalData cf = true ∧ (5 < Price cf)%Q)
                          small_snapshot.
Proof.
  apply (SelectCoarse_complete small_snapshot). vm_compute. lia.
Defined.

(** X4.  The ranking is stable: the qualifying records of one dollar
    volume stand in the ranking in the order they have in the snapshot. *)
Theorem sortedbyDollarVolume_stable coarse (v : Q) :
  filter (λ cf, (DollarVolume cf == v)%Q) (sortedbyDollarVolume coarse)
  = filter (λ cf, (DollarVolume cf == v)%Q) (filtered coarse).
Proof.
  unfold sortedbyDollarVolume, py_sorted_reverse.
  apply stable_sort_filter. intros x y Hx Hy.
  apply Qle_bool_iff. rewrite Hx, Hy. apply Qle_refl.
Qed.

(** X5.  Re-ranking changes nothing: [SelectCoarse] on a snapshot whose
    qualifying records already stand in descending order of dollar volume
    returns their symbols in snapshot order, cut at 50. *)
Theorem SelectCoarse_ranked_input coarse :
  StronglySorted (λ a b, (DollarVolume b <= DollarVolume a)%Q)
    (filter (λ cf, HasFundamentalData cf = true ∧ (5 < Price cf)%Q) coarse) →
  SelectCoarse coarse
  = take 50 (cf_Symbol <$>
             filter (λ cf, HasFundamentalData cf = true ∧ (5 < Price cf)%Q) coarse).
Proof.
  rewrite <- filtered_filter. intros Hsorted.
  unfold SelectCoarse, sortedbyDollarVolume, py_sorted_reverse.
  rewrite stable_sort_sorted; [done|].
  eapply StronglySorted_weaken; [|exact Hsorted].
  intros x y Hxy. by apply Qle_bool_iff.
Qed.

Lemma SelectCoarse_ranked_input_witness :
  SelectCoarse ranked_snapshot
  = take 50 (cf_Symbol <$>
             filter (λ cf, HasFundamentalData cf = true ∧ (5 < Price cf)%Q)
                    ranked_snapshot).
Proof.
  apply (SelectCoarse_ranked_input ranked_snapshot).
  replace (filter _ ranked_snapshot)
    with [ mkCoarse "DDD" (11 # 2) 800 true; mkCoarse "FFF" 7 500 true;
           mkCoarse "AAA" 12 300 true ]
    by (vm_compute; reflexivity).
  repeat constructor; unfold Qle; simpl; lia.
Defined.

(** X6.  When no two different qualifying records have the same dollar
    volume, the result does not depend on the order of the snapshot at
    all: two snapshots with the same records give the same list of
    symbols, in the same order. *)
Theorem SelectCoarse_deterministic (coarse1 coarse2 : list CoarseFundamental) :
  coarse1 ≡ₚ coarse2 →
  volumes_identify coarse1 →
  SelectCoarse coarse1 = SelectCoarse coarse2.
Proof.
  intros Hperm Hid.
  assert (Hranked : sortedbyDollarVolume coarse1 ≡ₚ sortedbyDollarVolume coarse2).
  { rewrite !sortedbyDollarVolume_Permutation. unfold filtered. by rewrite Hperm. }
  unfold SelectCoarse. do 2 f_equal.
  apply (StronglySorted_unique_strong (ranked_before DollarVolume));
    [|apply sortedbyDollarVolume_sorted..|exact Hranked].
  intros a b Ha Hb Hab Hba. rewrite <- Hranked in Hb.
  apply Hid; [by apply elem_of_sortedbyDollarVolume..|].
  by apply Qle_antisym.
Qed.

Lemma SelectCoarse_deterministic_witness :
  SelectCoarse distinct_snapshot = SelectCoarse ranked_snapshot.
Proof.
  apply (SelectCoarse_deterministic distinct_snapshot ranked_snapshot).
  - unfold distinct_snapshot, ranked_snapshot.
    etrans; [apply Permutation_swap|]. apply Permutation_skip.
    etrans; [apply Permutation_swap|]. apply Permutation_skip.
    apply Permutation_swap.
  - intros a b Ha Hb.
    replace (filtered distinct_snapshot)
      with [ mkCoarse "AAA" 12 300 true; mkCoarse "DDD" (11 # 2) 800 true;
             mkCoarse "FFF" 7 500 true ] in Ha, Hb
      by (vm_compute; reflexivity).
    set_unfold in Ha. set_unfold in Hb.
    destruct Ha as [->|[->|[->|[]]]], Hb as [->|[->|[->|[]]]];
      (reflexivity || (intros Hv; vm_compute in Hv; discriminate Hv)).
Defined.

(** X7.  As soon as one record qualifies the result is not empty, and its
    first symbol is that of a qualifying record that no qualifying record
    exceeds in dollar volume. *)
Theorem SelectCoarse_head coarse cf :
  cf ∈ coarse → HasFundamentalData cf = true → (5 < Price cf)%Q →
  ∃ top, head (SelectCoarse coarse) = Some (cf_Symbol top)
         ∧ top ∈ coarse ∧ HasFundamentalData top = true ∧ (5 < Price top)%Q
         ∧ ∀ other, other ∈ coarse → HasFundamentalData other = true →
                    (5 < Price other)%Q →
                    (DollarVolume other <= DollarVolume top)%Q.
Proof.
  intros Hin Hfd Hprice.
  assert (Hcf : cf ∈ sortedbyDollarVolume coarse).
  { apply elem_of_sortedbyDollarVolume, elem_of_filtered. tauto. }
  pose proof (sortedbyDollarVolume_sorted coarse) as Hsorted.
  pose proof (elem_of_sortedbyDollarVolume coarse) as Hmem.
  unfold SelectCoarse.
  destruct (sortedbyDollarVolume coarse) as [|top rest]; [by apply elem_of_nil in Hcf|].
  exists top. split; [done|].
  assert (Htop : top ∈ filtered coarse) by (apply Hmem; left).
  apply elem_of_filtered in Htop. split_and!; try tauto.
  intros other Ho Hofd Hop.
  assert (Hother : other ∈ top :: rest).
  { apply Hmem, elem_of_filtered. tauto. }
  apply StronglySorted_cons in Hsorted as [Hall _].
  apply elem_of_cons in Hother as [->|Hrest]; [apply Qle_refl|].
  rewrite Forall_forall in Hall. by apply Hall.
Qed.

Lemma SelectCoarse_head_witness :
  ∃ top, head (SelectCoarse distinct_snapshot) = Some (cf_Symbol top)
         ∧ top ∈ distinct_snapshot ∧ HasFundamentalData top = true
         ∧ (5 < Price top)%Q
         ∧ ∀ other, other ∈ distinct_snapshot → HasFundamentalData other = true →
                    (5 < Price other)%Q →
                    (DollarVolume other <= DollarVolume top)%Q.
Proof.
  apply (SelectCoarse_head distinct_snapshot (mkCoarse "FFF" 7 500 true)).
  - apply (bool_decide_unpack _). vm_compute. exact I.
  - reflexivity.
  - reflexivity.
Defined.

(** X8.  A snapshot in which every symbol occurs once yields a result in
    which every symbol occurs once. *)
Theorem SelectCoarse_NoDup coarse :
  NoDup (cf_Symbol <$> coarse) → NoDup (SelectCoarse coarse).
Proof.
  intros Hnd. unfold SelectCoarse.
  eapply sublist_NoDup; [|apply sublist_take].
  rewrite sortedbyDollarVolume_Permutation. unfold filtered.
  eapply sublist_NoDup; [exact Hnd|].
  apply fmap_sublist, sublist_filter.
Qed.

Lemma SelectCoarse_NoDup_witness : NoDup (SelectCoarse distinct_snapshot).
Proof.
  apply (SelectCoarse_NoDup distinct_snapshot).
  apply (bool_decide_unpack _). vm_compute. exact I.
Defined.

(** X9.  A qualifying record is left out only by the cut: if its symbol is
    not returned, then 50 symbols are returned and each of them is the
    symbol of a qualifying record of at least its dollar volume. *)
Theorem SelectCoarse_left_out coarse cf :
  cf ∈ coarse → HasFundamentalData cf = true → (5 < Price cf)%Q →
  cf_Symbol cf ∉ SelectCoarse coarse →
  length (SelectCoarse coarse) = 50%nat
  ∧ ∀ sym, sym ∈ SelectCoarse coarse →
      ∃ kept, kept ∈ coarse ∧ cf_Symbol kept = sym
              ∧ HasFundamentalData kept = true ∧ (5 < Price kept)%Q
              ∧ (DollarVolume cf <= DollarVolume kept)%Q.
Proof.
  intros Hin Hfd Hprice Hout. rewrite SelectCoarse_take in Hout |- *.
  assert (Hcf : cf ∈ sortedbyDollarVolume coarse).
  { apply elem_of_sortedbyDollarVolume, elem_of_filtered. tauto. }
  rewrite <- (take_drop 50 (sortedbyDollarVolume coarse)) in Hcf.
  apply elem_of_app in Hcf as [Hkept|Hdropped].
  { exfalso. apply Hout. by apply list_elem_of_fmap_2. }
  split.
  - rewrite length_fmap, length_take.
    assert (50 < length (sortedbyDollarVolume coarse))%nat; [|lia].
    destruct (decide (50 < length (sortedbyDollarVolume coarse))%nat); [done|].
    rewrite drop_ge in Hdropped by lia. by apply elem_of_nil in Hdropped.
  - intros sym Hsym. apply list_elem_of_fmap in Hsym as (kept & -> & Hkept).
    exists kept.
    assert (Hk : kept ∈ filtered coarse).
    { apply elem_of_sortedbyDollarVolume.
      eapply elem_of_sublist; [exact Hkept|apply sublist_take]. }
    apply elem_of_filtered in Hk. split_and!; try tauto.
    apply (ranked_split DollarVolume 50 (sortedbyDollarVolume coarse));
      [apply sortedbyDollarVolume_sorted|done|done].
Qed.

Lemma SelectCoarse_left_out_witness :
  length (SelectCoarse tied_snapshot) = 50%nat
  ∧ ∀ sym, sym ∈ SelectCoarse tied_snapshot →
      ∃ kept, kept ∈ tied_snapshot ∧ cf_Symbol kept = sym
              ∧ HasFundamentalData kept = true ∧ (5 < Price kept)%Q
              ∧ (DollarVolume (tied_record 50) <= DollarVolume kept)%Q.
Proof.
  apply (SelectCoarse_left_out tied_snapshot (tied_record 50)).
  - apply (bool_decide_unpack _). vm_compute. exact I.
  - reflexivity.
  - reflexivity.
  - apply (bool_decide_unpack _). vm_compute. exact I.
Defined.
End SelectCoarseMore.

(** ** More on the list primitives *)

Section PyListMore.
Context {A : Type} `{EqDecision A}.
Implicit Types (x y : A) (l : list A).

Lemma py_remove_sublist x l : py_remove x l `sublist_of` l.
Proof.
  induction l as [|y l IH]; simpl; [constructor|].
  destruct (decide (y = x)); [by apply sublist_cons|by apply sublist_skip].
Qed.

Lemma py_remove_app_r x l1 l2 :
  x ∉ l1 → py_remove x (l1 ++ l2) = l1 ++ py_remove x l2.
Proof.
  induction l1 as [|y l1 IH]; simpl; intros Hx; [done|].
  apply not_elem_of_cons in Hx as [Hne Hx].
  destruct (decide (y = x)); [congruence|]. by rewrite IH.
Qed.

Lemma py_remove_filter x l : NoDup l → py_remove x l = filter (λ y, y ≠ x) l.
Proof.
  induction 1 as [|y l Hy Hnd IH]; simpl; [done|].
  destruct (decide (y = x)) as [->|Hne].
  - rewrite filter_cons_False by auto. symmetry. apply filter_all.
    apply Forall_forall. intros z Hz ->. done.
  - rewrite filter_cons_True by done. by rewrite IH.
Qed.

Lemma occurrences_cons x y l :
  occurrences x (y :: l) = (if decide (y = x) then S (occurrences x l) else occurrences x l).
Proof. unfold occurrences. rewrite filter_cons. by destruct (decide (y = x)). Qed.

Lemma occurrences_app x l1 l2 :
  occurrences x (l1 ++ l2) = (occurrences x l1 + occurrences x l2)%nat.
Proof. unfold occurrences. by rewrite filter_app, length_app. Qed.

Lemma occurrences_pos x l : x ∈ l ↔ (0 < occurrences x l)%nat.
Proof.
  induction l as [|y l IH]; [unfold occurrences; simpl; split; [by intros ?%elem_of_nil|lia]|].
  rewrite occurrences_cons, elem_of_cons.
  destruct (decide (y = x)) as [->|Hne]; [split; [lia|by left]|].
  rewrite <- IH. split; [intros [?|?]; [congruence|done]|by right].
Qed.

Lemma occurrences_py_remove x r l :
  occurrences x (py_remove r l)
  = (if decide (x = r) then pred (occurrences x l) else occurrences x l).
Proof.
  induction l as [|y l IH]; simpl.
  - unfold occurrences. simpl. by destruct (decide (x = r)).
  - destruct (decide (y = r)) as [->|Hne].
    + rewrite occurrences_cons.
      destruct (decide (x = r)) as [->|Hxr].
      * by rewrite decide_True.
      * destruct (decide (r = x)); [congruence|done].
    + rewrite !occurrences_cons, IH.
      destruct (decide (y = x)) as [->|Hyx]; [|done].
      destruct (decide (x = r)); [congruence|done].
Qed.
End PyListMore.

(** ** More on AlphaModelTemplate.OnSecuritiesChanged *)

Section AlphaModelMore.
Import AlphaModelTemplate AlphaModelFacts.
Implicit Types (secs : state) (x y : Security) (changes : SecurityChanges).
Local Open Scope nat_scope.

(** *** The removal loop *)

Lemma remove_step_py_remove secs x : remove_step secs x = py_remove x secs.
Proof.
  unfold remove_step. destruct (py_in x secs) eqn:Hin; [done|].
  apply py_in_false in Hin. by rewrite py_remove_absent.
Qed.

Lemma remove_loop_sublist removed secs :
  foldl remove_step secs removed `sublist_of` secs.
Proof.
  revert secs. induction removed as [|r removed IH]; intros secs; simpl; [done|].
  etrans; [apply IH|]. rewrite remove_step_py_remove. apply py_remove_sublist.
Qed.

Lemma remove_loop_occurrences removed secs x :
  occurrences x (foldl remove_step secs removed)
  = occurrences x secs - occurrences x removed.
Proof.
  revert secs. induction removed as [|r removed IH]; intros secs; simpl.
  - unfold occurrences at 3. simpl. lia.
  - rewrite IH, remove_step_py_remove, occurrences_py_remove, occurrences_cons.
    destruct (decide (x = r)) as [->|Hne].
    + rewrite decide_True by done. lia.
    + destruct (decide (r = x)); [congruence|done].
Qed.

Lemma remove_loop_length removed secs :
  length secs - length removed ≤ length (foldl remove_step secs removed).
Proof.
  revert secs. induction removed as [|r removed IH]; intros secs; simpl; [lia|].
  etrans; [|apply IH]. rewrite remove_step_py_remove.
  assert (length secs ≤ S (length (py_remove r secs))); [|lia].
  clear. induction secs as [|y secs IHs]; simpl; [lia|].
  destruct (decide (y = r)); simpl; lia.
Qed.

(** On a list without duplicates a removal deletes the security, and the
    loop is a filter. *)
Lemma remove_step_app secs (fresh : list Security) x :
  x ∉ secs → NoDup fresh →
  remove_step (secs ++ fresh) x = secs ++ filter (λ y, y ≠ x) fresh.
Proof.
  intros Hx Hnd. rewrite remove_step_py_remove, py_remove_app_r by done.
  by rewrite py_remove_filter.
Qed.

Lemma remove_loop_app removed secs (fresh : list Security) :
  (∀ r, r ∈ removed → r ∉ secs) → NoDup fresh →
  foldl remove_step (secs ++ fresh) removed
  = secs ++ filter (λ y, y ∉ removed) fresh.
Proof.
  revert fresh. induction removed as [|r removed IH]; intros fresh Hout Hnd; simpl.
  - rewrite filter_all; [done|]. apply Forall_forall. intros y _. apply not_elem_of_nil.
  - rewrite remove_step_app by (done || apply Hout; left).
    rewrite IH; [|intros r' Hr'; apply Hout; by right|by apply NoDup_filter].
    rewrite list_filter_filter. f_equal. apply list_filter_iff.
    intros y. rewrite not_elem_of_cons. tauto.
Qed.

Lemma remove_loop_filter removed secs :
  NoDup secs → foldl remove_step secs removed = filter (λ y, y ∉ removed) secs.
Proof.
  intros Hnd. apply (remove_loop_app removed [] secs); [|done].
  intros r _. apply not_elem_of_nil.
Qed.

(** *** The append loop *)

Lemma add_loop_app added secs :
  ∃ fresh,
    foldl add_step secs added = secs ++ fresh
    ∧ fresh `sublist_of` added
    ∧ NoDup fresh
    ∧ ∀ x, x ∈ fresh ↔ x ∈ added ∧ x ∉ secs.
Proof.
  revert secs. induction added as [|a added IH]; intros secs; simpl.
  - exists []. split_and!; [by rewrite app_nil_r|done|constructor|].
    intros x. split; [by intros ?%elem_of_nil|by intros [?%elem_of_nil _]].
  - destruct (decide (a ∈ secs)) as [Hin|Hout].
    + rewrite add_step_present by done.
      destruct (IH secs) as (fresh & Heq & Hsub & Hnd & Hmem).
      exists fresh. split_and!; [done|by apply sublist_cons|done|].
      intros x. rewrite Hmem, elem_of_cons. split; [tauto|].
      intros [[->|Hx] Hxs]; [done|tauto].
    + assert (Hstep : add_step secs a = secs ++ [a]).
      { unfold add_step, py_append. apply py_in_false in Hout. by rewrite Hout. }
      rewrite Hstep.
      destruct (IH (secs ++ [a])) as (fresh & Heq & Hsub & Hnd & Hmem).
      exists (a :: fresh). split_and!.
      * rewrite Heq, <- app_assoc. done.
      * by apply sublist_skip.
      * constructor; [|done]. intros Ha. apply Hmem in Ha as [_ Ha].
        apply Ha, elem_of_app. right. left.
      * intros x. rewrite !elem_of_cons, Hmem, elem_of_app, list_elem_of_singleton.
        destruct (decide (x = a)) as [->|Hne]; [tauto|]. tauto.
Qed.

Lemma add_loop_occurrences added secs x :
  occurrences x (foldl add_step secs added)
  = (if decide (x ∈ added) then occurrences x secs `max` 1 else occurrences x secs).
Proof.
  destruct (add_loop_app added secs) as (fresh & -> & _ & Hnd & Hmem).
  rewrite occurrences_app.
  assert (Hfresh : occurrences x fresh = if decide (x ∈ fresh) then 1 else 0).
  { clear Hmem. induction Hnd as [|y fresh Hy Hnd IH].
    - by rewrite decide_False by apply not_elem_of_nil.
    - rewrite occurrences_cons, IH.
      destruct (decide (y = x)) as [->|Hne].
      + rewrite decide_False by done. by rewrite decide_True by left.
      + destruct (decide (x ∈ fresh)) as [Hin|Hout].
        * by rewrite decide_True by (by right).
        * rewrite decide_False; [done|].
          intros [?|?]%elem_of_cons; [congruence|done]. }
  rewrite Hfresh.
  pose proof (occurrences_pos x secs) as Hpos.
  destruct (decide (x ∈ fresh)) as [Hin|Hout].
  - apply Hmem in Hin as [Hadd Hsecs]. rewrite decide_True by done.
    assert (occurrences x secs = 0) by (destruct (occurrences x secs); [done|];
      exfalso; apply Hsecs, Hpos; lia).
    lia.
  - destruct (decide (x ∈ added)) as [Hadd|Hadd]; [|lia].
    assert (x ∈ secs) as Hsecs%Hpos; [|lia].
    destruct (decide (x ∈ secs)); [done|]. exfalso. apply Hout, Hmem. done.
Qed.

Lemma OnSecuritiesChanged_from secs changes y :
  y ∈ OnSecuritiesChanged secs changes → y ∈ secs ∨ y ∈ AddedSecurities changes.
Proof.
  unfold OnSecuritiesChanged. rewrite elem_of_add_loop. intros [Hy|Hy]; [|by right].
  left. eapply elem_of_sublist; [exact Hy|apply remove_loop_sublist].
Qed.

Lemma after_notifications_snoc history changes :
  after_notifications (history ++ [changes])
  = OnSecuritiesChanged (after_notifications history) changes.
Proof. unfold after_notifications. by rewrite foldl_app. Qed.

(** X10.  Whatever the list, [OnSecuritiesChanged] keeps every security
    that is not in [RemovedSecurities], and holds nothing afterwards but
    securities it held before or found in [AddedSecurities]. *)
Theorem OnSecuritiesChanged_conservative secs changes y :
  (y ∈ secs → y ∉ RemovedSecurities changes → y ∈ OnSecuritiesChanged secs changes)
  ∧ (y ∈ OnSecuritiesChanged secs changes → y ∈ secs ∨ y ∈ AddedSecurities changes).
Proof.
  split; [|apply OnSecuritiesChanged_from].
  intros Hin Hout. unfold OnSecuritiesChanged. apply elem_of_add_loop. left.
  apply occurrences_pos. rewrite remove_loop_occurrences.
  apply occurrences_pos in Hin.
  assert (occurrences y (RemovedSecurities changes) = 0); [|lia].
  destruct (occurrences y (RemovedSecurities changes)) eqn:Hocc; [done|].
  exfalso. apply Hout, occurrences_pos. lia.
Qed.

(** X11.  On any list, duplicates included, each mention of a security in
    [RemovedSecurities] deletes one of its entries as long as there is
    one, and a security in [AddedSecurities] is appended once if no entry
    is left: the number of entries equal to [x] afterwards is the number
    before minus the mentions in [RemovedSecurities], and at least 1 when
    [x] is in [AddedSecurities]. *)
Theorem OnSecuritiesChanged_occurrences secs changes x :
  occurrences x (OnSecuritiesChanged secs changes)
  = let kept := occurrences x secs - occurrences x (RemovedSecurities changes) in
    if decide (x ∈ AddedSecurities changes) then kept `max` 1 else kept.
Proof.
  unfold OnSecuritiesChanged.
  by rewrite add_loop_occurrences, remove_loop_occurrences.
Qed.

(** X12.  After a notification, in whatever state the model was after the
    notifications before it, the model holds exactly the securities it
    held that the notification does not remove, and those the
    notification adds. *)
Theorem after_notification_members
    (history : list SecurityChanges) changes y :
  y ∈ after_notifications (history ++ [changes])
  ↔ (y ∈ after_notifications history ∧ y ∉ RemovedSecurities changes)
    ∨ y ∈ AddedSecurities changes.
Proof.
  rewrite after_notifications_snoc.
  apply elem_of_OnSecuritiesChanged, after_notifications_NoDup.
Qed.

(** X13.  The securities that stay keep their order and the new ones come
    after them: the list afterwards is a sublist of the old list followed
    by a duplicate-free sublist of [AddedSecurities], none of which is
    among the securities that stayed. *)
Theorem OnSecuritiesChanged_order secs changes :
  ∃ kept fresh,
    OnSecuritiesChanged secs changes = kept ++ fresh
    ∧ kept `sublist_of` secs
    ∧ fresh `sublist_of` AddedSecurities changes
    ∧ NoDup fresh
    ∧ ∀ x, x ∈ fresh → x ∉ kept.
Proof.
  unfold OnSecuritiesChanged.
  destruct (add_loop_app (AddedSecurities changes)
              (foldl remove_step secs (RemovedSecurities changes)))
    as (fresh & Heq & Hsub & Hnd & Hmem).
  exists (foldl remove_step secs (RemovedSecurities changes)), fresh.
  split_and!; [done|apply remove_loop_sublist|done|done|].
  intros x Hx. by apply Hmem in Hx as [_ Hx].
Qed.

(** X14.  On a list without duplicates the result is the old list without
    the removed securities, in the old order, followed by the added
    securities that are not among them, each once, in the order of
    [AddedSecurities]. *)
Theorem OnSecuritiesChanged_closed_form secs changes :
  NoDup secs →
  ∃ fresh,
    OnSecuritiesChanged secs changes
    = filter (λ y, y ∉ RemovedSecurities changes) secs ++ fresh
    ∧ fresh `sublist_of` AddedSecurities changes
    ∧ NoDup fresh
    ∧ ∀ x, x ∈ fresh ↔ x ∈ AddedSecurities changes
                        ∧ (x ∉ secs ∨ x ∈ RemovedSecurities changes).
Proof.
  intros Hsecs. unfold OnSecuritiesChanged. rewrite remove_loop_filter by done.
  destruct (add_loop_app (AddedSecurities changes)
              (filter (λ y, y ∉ RemovedSecurities changes) secs))
    as (fresh & Heq & Hsub & Hnd & Hmem).
  exists fresh. split_and!; [done..|].
  intros x. rewrite Hmem, list_elem_of_filter.
  destruct (decide (x ∈ RemovedSecurities changes)); tauto.
Qed.

Lemma OnSecuritiesChanged_closed_form_witness :
  ∃ fresh,
    OnSecuritiesChanged [SPY; MSFT] (mkChanges [AAPL; SPY; AAPL] [SPY])
    = filter (λ y, y ∉ [SPY]) [SPY; MSFT] ++ fresh
    ∧ fresh `sublist_of` [AAPL; SPY; AAPL]
    ∧ NoDup fresh
    ∧ ∀ x, x ∈ fresh ↔ x ∈ [AAPL; SPY; AAPL] ∧ (x ∉ [SPY; MSFT] ∨ x ∈ [SPY]).
Proof.
  apply (OnSecuritiesChanged_closed_form [SPY; MSFT]
           (mkChanges [AAPL; SPY; AAPL] [SPY])).
  apply (bool_decide_unpack _). vm_compute. exact I.
Defined.

(** X15.  Adding securities the model does not hold and then removing the
    same securities gives back the list exactly as it was. *)
Theorem OnSecuritiesChanged_add_then_remove secs (added : list Security) :
  (∀ a, a ∈ added → a ∉ secs) →
  OnSecuritiesChanged (OnSecuritiesChanged secs (mkChanges added []))
                      (mkChanges [] added)
  = secs.
Proof.
  intros Hfresh. unfold OnSecuritiesChanged. simpl.
  destruct (add_loop_app added secs) as (fresh & -> & _ & Hnd & Hmem).
  rewrite remove_loop_app by done.
  rewrite filter_none; [by rewrite app_nil_r|].
  apply Forall_forall. intros x Hx Hout. apply Hout. by apply Hmem in Hx as [Hx _].
Qed.

Lemma OnSecuritiesChanged_add_then_remove_witness :
  OnSecuritiesChanged (OnSecuritiesChanged [SPY; SPY] (mkChanges [MSFT; AAPL; MSFT] []))
                      (mkChanges [] [MSFT; AAPL; MSFT])
  = [SPY; SPY].
Proof.
  apply (OnSecuritiesChanged_add_then_remove [SPY; SPY] [MSFT; AAPL; MSFT]).
  intros a Ha Hs. set_unfold in Ha. set_unfold in Hs.
  destruct Ha as [->|[->|[->|[]]]], Hs as [Hs|[Hs|[]]]; discriminate Hs.
Defined.

(** *** Errors of [list.remove] *)

Lemma list_remove_present (x : Security) (l : list Security) :
  x ∈ l → list_remove x l = Some (py_remove x l).
Proof.
  induction l as [|y l IH]; simpl; [by intros ?%elem_of_nil|].
  destruct (decide (y = x)) as [->|Hne]; [done|].
  intros [?|Hin]%elem_of_cons; [congruence|]. by rewrite IH.
Qed.

Lemma list_remove_absent (x : Security) (l : list Security) :
  x ∉ l → list_remove x l = None.
Proof.
  induction l as [|y l IH]; simpl; [done|].
  intros [Hne Hout]%not_elem_of_cons.
  destruct (decide (y = x)); [congruence|]. by rewrite IH.
Qed.

(** The guard [if removed in self.securities] keeps [list.remove] from
    raising: the checked run never stops and gives the same list. *)
Lemma remove_step_checked_ok secs x :
  remove_step_checked secs x = Some (remove_step secs x).
Proof.
  unfold remove_step_checked, remove_step.
  destruct (py_in x secs) eqn:Hin; [|done].
  apply list_remove_present. by apply py_in_true.
Qed.

Lemma remove_loop_checked_ok removed secs :
  remove_loop_checked secs removed = Some (foldl remove_step secs removed).
Proof.
  revert secs. induction removed as [|r removed IH]; intros secs; simpl; [done|].
  by rewrite remove_step_checked_ok, IH.
Qed.

Lemma OnSecuritiesChanged_checked_ok secs changes :
  OnSecuritiesChanged_checked secs changes = Some (OnSecuritiesChanged secs changes).
Proof. unfold OnSecuritiesChanged_checked. by rewrite remove_loop_checked_ok. Qed.

Example list_remove_raises : list_remove AAPL [SPY; MSFT] = None.
Proof. reflexivity. Qed.

(** X16.  Removing a security the model does not hold is not an error, and
    adding one it holds adds nothing: a notification that removes only
    absent securities and adds only present ones raises no error (the run
    that keeps the ValueError of [list.remove] returns a list) and leaves
    the list as it is. *)
Theorem OnSecuritiesChanged_unchanged secs changes :
  (∀ r, r ∈ RemovedSecurities changes → r ∉ secs) →
  (∀ a, a ∈ AddedSecurities changes → a ∈ secs) →
  OnSecuritiesChanged_checked secs changes = Some secs
  ∧ OnSecuritiesChanged secs changes = secs.
Proof.
  intros Habsent Hpresent.
  assert (Hsame : OnSecuritiesChanged secs changes = secs).
  { unfold OnSecuritiesChanged.
    rewrite remove_loop_absent by done. by apply add_loop_present. }
  split; [|done]. by rewrite OnSecuritiesChanged_checked_ok, Hsame.
Qed.

Lemma OnSecuritiesChanged_unchanged_witness :
  OnSecuritiesChanged_checked [SPY; MSFT] (mkChanges [MSFT; SPY] [AAPL])
  = Some [SPY; MSFT]
  ∧ OnSecuritiesChanged [SPY; MSFT] (mkChanges [MSFT; SPY] [AAPL]) = [SPY; MSFT].
Proof.
  apply (OnSecuritiesChanged_unchanged [SPY; MSFT] (mkChanges [MSFT; SPY] [AAPL])).
  - simpl. intros r Hr Hs. set_unfold in Hr. set_unfold in Hs.
    destruct Hr as [->|[]], Hs as [Hs|[Hs|[]]]; discriminate Hs.
  - simpl. intros a Ha. set_unfold in Ha. set_unfold.
    destruct Ha as [->|[->|[]]]; auto.
Defined.

(** X17.  The model never holds a security that no notification added:
    every security in the list reached from [__init__] was in the
    [AddedSecurities] of one of the notifications. *)
Theorem after_notifications_provenance (history : list SecurityChanges) y :
  y ∈ after_notifications history →
  ∃ changes, changes ∈ history ∧ y ∈ AddedSecurities changes.
Proof.
  induction history as [|changes history IH] using rev_ind.
  - intros Hy. by apply elem_of_nil in Hy.
  - rewrite after_notifications_snoc. intros Hy.
    apply OnSecuritiesChanged_from in Hy as [Hy|Hy].
    + destruct (IH Hy) as (c & Hc & Hyc). exists c. split; [|done].
      apply elem_of_app. by left.
    + exists changes. split; [|done]. apply elem_of_app. right. left.
Qed.

Lemma after_notifications_provenance_witness :
  ∃ changes,
    changes ∈ [mkChanges [SPY; MSFT] []; mkChanges [AAPL] [SPY]]
    ∧ MSFT ∈ AddedSecurities changes.
Proof.
  apply (after_notifications_provenance
           [mkChanges [SPY; MSFT] []; mkChanges [AAPL] [SPY]] MSFT).
  apply (bool_decide_unpack _). vm_compute. exact I.
Defined.

(** X18.  A notification shortens the list by at most the number of
    removed securities and lengthens it by at most the number of added
    ones. *)
Theorem OnSecuritiesChanged_length secs changes :
  length secs - length (RemovedSecurities changes)
  ≤ length (OnSecuritiesChanged secs changes)
  ≤ length secs + length (AddedSecurities changes).
Proof.
  unfold OnSecuritiesChanged.
  destruct (add_loop_app (AddedSecurities changes)
              (foldl remove_step secs (RemovedSecurities changes)))
    as (fresh & -> & Hsub & _ & _).
  rewrite length_app.
  pose proof (remove_loop_length (RemovedSecurities changes) secs).
  pose proof (sublist_length _ _ (remove_loop_sublist (RemovedSecurities changes) secs)).
  pose proof (sublist_length _ _ Hsub). lia.
Qed.
End AlphaModelMore.
